(** * The Vite preview server: session lifecycle of [server.js]

    A shallow embedding of the request handlers of [src/server.js]
    ([POST /load-project], [POST /update-file], the cleanup interval and the
    SIGTERM drain) over an explicit model of what they touch: the [projects]
    map, the disk under [__dirname], and the calls made on the Vite servers.

    Layout: JSON values as [express.json()] hands them over; the parts of
    Node's [path] and [fs/promises] modules the handlers call; a small
    state-and-trace monad with exceptions; the handlers; then the theorems. *)

From Stdlib Require Import ZArith Ascii.
From stdpp Require Import gmap strings list.

Open Scope string_scope.

#[local] Set Warnings "-register-all".

(** ** JSON values of a request body *)

(** A parsed JSON value, plus [undefined] for a field the body does not have
    (the result of the destructuring [const { projectId, ... } = req.body]).
    Numbers are carried as integers: the handlers only test them for
    truthiness and for not being strings.  A string is carried as its
    bytes in UTF-8; a lone surrogate, which JSON can hold and UTF-8 cannot,
    as the three bytes of its code point. *)
Inductive value : Type :=
  | VUndefined
  | VNull
  | VBool (b : bool)
  | VNum (n : Z)
  | VStr (s : string)
  | VArr (items : list value)
  | VObj (fields : list (string * value)).

(** JavaScript's ToBoolean, as used by [!x]. *)
Definition truthy (v : value) : bool :=
  match v with
  | VUndefined | VNull => false
  | VBool b => b
  | VNum n => negb (n =? 0)%Z
  | VStr s => negb (s =? EmptyString)
  | VArr _ | VObj _ => true
  end.

Definition falsy (v : value) : bool := negb (truthy v).

(** [Array.isArray]. *)
Definition isArray (v : value) : bool :=
  match v with VArr _ => true | _ => false end.

(** What a handler can throw: a [TypeError] of the runtime, a failed system
    call (with its errno name), or a failure of the engine to start. *)
Inductive js_error : Type :=
  | TypeError (msg : string)
  | SystemError (code : string)
  | EngineError (msg : string).

Definition message (e : js_error) : string :=
  match e with
  | TypeError msg => msg
  | SystemError code => code
  | EngineError msg => msg
  end.

Fixpoint assoc (k : string) (fields : list (string * value)) : option value :=
  match fields with
  | [] => None
  | (k', v) :: rest => if k' =? k then Some v else assoc k rest
  end.

(** Property read [v.k] for a key that no prototype defines ([path],
    [content]): it throws on [null] and [undefined], finds own fields of an
    object and is [undefined] on everything else. *)
Definition get_prop (v : value) (k : string) : js_error + value :=
  match v with
  | VUndefined | VNull => inl (TypeError "Cannot read properties of null")
  | VObj fields => inr (default VUndefined (assoc k fields))
  | _ => inr VUndefined
  end.

(** ** Node's [path] module (POSIX flavour)

    [path.join] and [path.dirname] belong to the runtime, not to the
    repository; they are modelled after Node's [lib/path.js].  [normalize]
    works segment by segment where Node's [normalizeString] scans character
    by character: empty and [.] segments are dropped, [..] removes the
    segment before it, and a [..] with nothing to remove is kept for a
    relative path and dropped for an absolute one. *)

Definition slash : ascii := "/"%char.

(** [s.split('/')]. *)
Fixpoint split_slash (s : string) : list string :=
  match s with
  | EmptyString => [EmptyString]
  | String c rest =>
      if Ascii.eqb c slash then EmptyString :: split_slash rest
      else match split_slash rest with
           | seg :: segs => String c seg :: segs
           | [] => [String c EmptyString]
           end
  end.

(** [segs.join('/')]. *)
Fixpoint join_slash (segs : list string) : string :=
  match segs with
  | [] => EmptyString
  | [s] => s
  | s :: rest => s +:+ String slash (join_slash rest)
  end.

(** [normalizeString]: [res] is the stack of segments kept so far, most
    recent first. *)
Fixpoint normalize_segments (allowAboveRoot : bool) (res segs : list string)
  : list string :=
  match segs with
  | [] => rev res
  | seg :: rest =>
      if (seg =? EmptyString) || (seg =? ".") then
        normalize_segments allowAboveRoot res rest
      else if seg =? ".." then
        match res with
        | top :: res' =>
            if top =? ".." then
              normalize_segments allowAboveRoot
                (if allowAboveRoot then ".." :: res else res) rest
            else normalize_segments allowAboveRoot res' rest
        | [] =>
            normalize_segments allowAboveRoot
              (if allowAboveRoot then [".."] else []) rest
        end
      else normalize_segments allowAboveRoot (seg :: res) rest
  end.

Definition starts_with_slash (p : string) : bool :=
  match p with
  | String c _ => Ascii.eqb c slash
  | EmptyString => false
  end.

Fixpoint ends_with_slash (p : string) : bool :=
  match p with
  | EmptyString => false
  | String c EmptyString => Ascii.eqb c slash
  | String _ rest => ends_with_slash rest
  end.

(** [path.normalize]. *)
Definition normalize (p : string) : string :=
  if p =? EmptyString then "."
  else
    let isAbsolute := starts_with_slash p in
    let trailingSeparator := ends_with_slash p in
    let body :=
      join_slash (normalize_segments (negb isAbsolute) [] (split_slash p)) in
    if body =? EmptyString then
      if isAbsolute then "/" else if trailingSeparator then "./" else "."
    else
      let body := if trailingSeparator then body +:+ "/" else body in
      if isAbsolute then "/" +:+ body else body.

(** [path.join(...args)] once every argument has passed [validateString]. *)
Definition join (args : list string) : string :=
  match List.filter (fun a => negb (a =? EmptyString)) args with
  | [] => "."
  | parts => normalize (join_slash parts)
  end.

(** [validateString] over the arguments, in order. *)
Fixpoint validate_strings (args : list value) : js_error + list string :=
  match args with
  | [] => inr []
  | VStr s :: rest =>
      match validate_strings rest with
      | inr ss => inr (s :: ss)
      | inl e => inl e
      end
  | _ :: _ => inl (TypeError "The path argument must be of type string")
  end.

(** [path.join] on arbitrary JavaScript values. *)
Definition join_values (args : list value) : js_error + string :=
  match validate_strings args with
  | inr ss => inr (join ss)
  | inl e => inl e
  end.

(** [path.dirname]: scanning from the end and never looking at index 0, skip
    the trailing slashes and the last segment; the slash found next ends the
    result. *)
Fixpoint drop_slashes (cs : list ascii) : list ascii :=
  match cs with
  | c :: rest => if Ascii.eqb c slash then drop_slashes rest else cs
  | [] => []
  end.

Fixpoint drop_segment (cs : list ascii) : list ascii :=
  match cs with
  | c :: rest => if Ascii.eqb c slash then cs else drop_segment rest
  | [] => []
  end.

Definition dirname (p : string) : string :=
  match String.list_ascii_of_string p with
  | [] => "."
  | c0 :: cs =>
      let hasRoot := Ascii.eqb c0 slash in
      match drop_segment (drop_slashes (rev cs)) with
      | [] => if hasRoot then "/" else "."
      | _ :: before =>
          match before with
          | [] => if hasRoot then "//" else String c0 EmptyString
          | _ => String.string_of_list_ascii (c0 :: rev before)
          end
      end
  end.

(** ** The disk and [fs/promises]

    The disk maps a resolved absolute path (its list of segments) to a
    directory or to a regular file with its contents; the root is a
    directory.  File contents are the JavaScript string written: for a
    string without lone surrogates these are the bytes [fs] writes; that
    the encoding puts U+FFFD in the place of a lone surrogate, in contents
    and in names, is not modelled.  There are no symbolic links: nothing
    here creates one. *)

Inductive node : Type :=
  | Dir
  | File (data : string).

(** The segments the kernel walks for an absolute path string.  Every path
    the handlers hand to [fs] comes out of [join] or [dirname] and is
    already normalised when [__dirname] is absolute, so the lexical
    treatment of [.] and [..] here never comes into play. *)
Definition resolve (p : string) : list string :=
  normalize_segments false [] (split_slash p).

Definition is_dir (fs : gmap (list string) node) (k : list string) : bool :=
  match k with
  | [] => true
  | _ => match fs !! k with Some Dir => true | _ => false end
  end.

(** What [fs] refuses in a path whatever the disk holds.  Node rejects a
    path with a NUL byte before any system call ([ERR_INVALID_ARG_VALUE], a
    [TypeError]); the kernel answers [ENAMETOOLONG] to a name of more than
    [NAME_MAX] bytes and to a path that, with its terminating NUL, does not
    fit in [PATH_MAX] bytes (the values are those of Linux).  Strings are
    carried as their bytes, so [String.length] is the length in bytes. *)
Fixpoint has_nul (s : string) : bool :=
  match s with
  | EmptyString => false
  | String c rest => Ascii.eqb c Ascii.zero || has_nul rest
  end.

Definition NAME_MAX : nat := 255.

Definition PATH_MAX : nat := 4096.

Definition path_refused (p : string) : option js_error :=
  if has_nul p then Some (TypeError "ERR_INVALID_ARG_VALUE")
  else if Nat.leb PATH_MAX (String.length p)
          || existsb (fun seg => Nat.ltb NAME_MAX (String.length seg)) (split_slash p)
  then Some (SystemError "ENAMETOOLONG")
  else None.

(** [fs.mkdir(p, { recursive: true })]: existing directories are accepted,
    missing ones created from the top, and a regular file on the way is an
    error. *)
Fixpoint mkdir_walk (fs : gmap (list string) node) (pre segs : list string)
  : js_error + gmap (list string) node :=
  match segs with
  | [] => inr fs
  | s :: rest =>
      let cur := (pre ++ [s])%list in
      match fs !! cur with
      | Some (File _) =>
          inl (SystemError (match rest with [] => "EEXIST" | _ => "ENOTDIR" end))
      | Some Dir => mkdir_walk fs cur rest
      | None => mkdir_walk (<[cur := Dir]> fs) cur rest
      end
  end.

(** The call itself: a path that [fs] refuses is refused before anything
    is created. *)
Definition mkdir_recursive (fs : gmap (list string) node) (p : string)
  : js_error + gmap (list string) node :=
  match path_refused p with
  | Some e => inl e
  | None => mkdir_walk fs [] (resolve p)
  end.

(** [open(p, 'w')]: the key of the file to truncate or create, for a path
    that [fs] does not refuse. *)
Definition open_w (fs : gmap (list string) node) (p : string)
  : js_error + list string :=
  let k := resolve p in
  match path_refused p with
  | Some e => inl e
  | None =>
      if ends_with_slash p then inl (SystemError "EISDIR")
      else
        match k with
        | [] => inl (SystemError "EISDIR")
        | _ =>
            if is_dir fs (removelast k) then
              match fs !! k with
              | Some Dir => inl (SystemError "EISDIR")
              | _ => inr k
              end
            else
              match fs !! removelast k with
              | Some (File _) => inl (SystemError "ENOTDIR")
              | _ => inl (SystemError "ENOENT")
              end
        end
  end.

(** [fs.rm(p, { recursive: true, force: true })] once it has succeeded:
    nothing is left at [p] or below it. *)
Definition rm_recursive (fs : gmap (list string) node) (p : string)
  : gmap (list string) node :=
  filter (fun kv => ¬ resolve p `prefix_of` kv.1) fs.

(** ** Calls made on the outside world *)

(** One entry per call on the outside world, in program order.  For a call
    that is awaited ([mkdir], [writeFile], [createViteServer]) the entry
    stands for the call having returned; [close] and [rm] are entered when
    they are started.  [h] numbers the Vite servers in the order
    [createViteServer] returned them. *)
Inductive event : Type :=
  | EvMkdir (p : string)
  | EvWriteFile (p : string) (data : value)
  | EvCreateServer (h : nat) (root : string)
  | EvInvalidateModule (h : nat) (id : string)
  | EvWsSend (h : nat) (file : string) (timestamp : Z)
  | EvClose (h : nat)
  | EvRm (p : string)
  | EvConsoleError (msg : string)
  | EvExit (code : Z).

(** ** State of the process *)

(** A value of the [projects] map: the object literal of [projects.set]. *)
Record project : Type := {
  vite : nat;
  path : string;
  files : list value;
  createdAt : Z
}.

Record state : Type := {
  projects : list (string * project);
  disk : gmap (list string) node;
  servers : nat
}.

Definition initial : state :=
  {| projects := []; disk := ∅; servers := 0 |}.

(** What a request sees of its surroundings: the clock read by
    [Date.now()], whether [createViteServer] resolves, and which module ids
    each server's module graph holds. *)
Record env : Type := {
  now : Z;
  engine_starts : bool;
  getModuleById : nat → string → bool
}.

Record response : Type := {
  status : Z;
  body : value
}.

(** *** The [Map] of projects

    Entries are kept in insertion order, which is the order [entries()]
    yields them.  Keys are strings: [projects.set] is reached only after
    [path.join] has accepted [projectId], and [join] rejects every other
    type. *)

Fixpoint map_get (k : string) (m : list (string * project)) : option project :=
  match m with
  | [] => None
  | (k', v) :: rest => if k' =? k then Some v else map_get k rest
  end.

Fixpoint map_set (k : string) (v : project) (m : list (string * project))
  : list (string * project) :=
  match m with
  | [] => [(k, v)]
  | (k', v') :: rest =>
      if k' =? k then (k, v) :: rest else (k', v') :: map_set k v rest
  end.

Fixpoint map_delete (k : string) (m : list (string * project))
  : list (string * project) :=
  match m with
  | [] => []
  | (k', v') :: rest =>
      if k' =? k then rest else (k', v') :: map_delete k rest
  end.

(** [projects.get(projectId)] for an arbitrary value: only a string can be
    one of the keys. *)
Definition projects_get (projectId : value) (m : list (string * project))
  : option project :=
  match projectId with
  | VStr k => map_get k m
  | _ => None
  end.

(** ** Handlers as state transformers

    A computation runs from a state to a result or a thrown error, the state
    it leaves and the calls it made, in order.  A throw keeps the state and
    the calls of everything that ran before it. *)

Definition M (A : Type) : Type :=
  state → (js_error + A) * state * list event.

Definition ret {A} (a : A) : M A := fun st => (inr a, st, []).

Definition throw {A} (e : js_error) : M A := fun st => (inl e, st, []).

Definition bind {A B} (m : M A) (k : A → M B) : M B :=
  fun st =>
    match m st with
    | (inl e, st1, tr1) => (inl e, st1, tr1)
    | (inr a, st1, tr1) =>
        match k a st1 with
        | (r, st2, tr2) => (r, st2, (tr1 ++ tr2)%list)
        end
    end.

Notation "'let*' x ':=' m 'in' k" :=
  (bind m (fun x => k))
  (at level 10, x name, m at level 100, k at level 200).

Notation "m '>>' k" :=
  (bind m (fun _ => k))
  (at level 65, right associativity).

(** [try { m } catch (error) { ... }] around a whole handler body: the catch
    block logs the error and answers; it does not throw. *)
Definition try_catch {A} (m : M A) (h : js_error → list event * A)
  : state → A * state * list event :=
  fun st =>
    match m st with
    | (inr a, st1, tr1) => (a, st1, tr1)
    | (inl e, st1, tr1) => ((h e).2, st1, (tr1 ++ (h e).1)%list)
    end.

Definition lift {A} (r : js_error + A) : M A :=
  match r with
  | inl e => throw e
  | inr a => ret a
  end.

Definition emit (evs : list event) : M unit := fun st => (inr tt, st, evs).

Definition get_state : M state := fun st => (inr st, st, []).

Definition set_disk (fs : gmap (list string) node) : M unit :=
  fun st =>
    (inr tt, {| projects := projects st; disk := fs; servers := servers st |}, []).

Definition set_projects (m : list (string * project)) : M unit :=
  fun st =>
    (inr tt, {| projects := m; disk := disk st; servers := servers st |}, []).

(** [for (const x of xs) body(x)]. *)
Fixpoint for_of {A} (xs : list A) (body : A → M unit) : M unit :=
  match xs with
  | [] => ret tt
  | x :: rest => body x >> for_of rest body
  end.

(** ** The handlers of [server.js] *)

Section Server.

(** [Buffer.from(chunk, 'utf-8')] for one element of an array handed to
    [fs.writeFile] as its data: the bytes, or [None] where it throws.  What
    it does on values that are not strings is left open. *)
Variable buffer_from : value → option string.

(** The directory of [server.js]. *)
Variable __dirname : string.

Fixpoint write_chunks (chunks : list value) (written : string)
  : string * option js_error :=
  match chunks with
  | [] => (written, None)
  | c :: rest =>
      match buffer_from c with
      | Some bytes => write_chunks rest (written +:+ bytes)
      | None => (written, Some (TypeError "The first argument must be of type string"))
      end
  end.

(** [await fs.mkdir(p, { recursive: true })]. *)
Definition mkdir (p : string) : M unit :=
  let* st := get_state in
  let* fs := lift (mkdir_recursive (disk st) p) in
  set_disk fs >> emit [EvMkdir p].

(** [await fs.writeFile(p, data, 'utf-8')].  A string is written whole.  An
    array is an iterable of chunks: the file is opened (and truncated)
    first, then the chunks are written one by one until one is refused.
    Every other JSON value is refused before the file is opened. *)
Definition writeFile (p : string) (data : value) : M unit :=
  match data with
  | VStr s =>
      let* st := get_state in
      let* k := lift (open_w (disk st) p) in
      set_disk (<[k := File s]> (disk st)) >> emit [EvWriteFile p data]
  | VArr chunks =>
      let* st := get_state in
      let* k := lift (open_w (disk st) p) in
      match write_chunks chunks EmptyString with
      | (written, None) =>
          set_disk (<[k := File written]> (disk st)) >> emit [EvWriteFile p data]
      | (written, Some e) =>
          set_disk (<[k := File written]> (disk st)) >> throw e
      end
  | _ => throw (TypeError "The data argument must be of type string")
  end.

(** [await createViteServer({ root, ... })].  The engine is a black box:
    the state records that a server exists.  The disk of the state is the
    disk as the calls of this server ([fs.mkdir], [fs.writeFile], [fs.rm])
    make it; what an engine writes for itself while it starts and runs (its
    dependency cache, under its root or beside the server) is not recorded,
    so the disk says which files the handlers have put in place, not that
    no other file exists once an engine has run. *)
Definition createViteServer (e : env) (root : string) : M nat :=
  if engine_starts e then
    fun st =>
      (inr (servers st),
       {| projects := projects st; disk := disk st; servers := S (servers st) |},
       [EvCreateServer (servers st) root])
  else throw (EngineError "failed to start the dev server").

(** The key under which [projects.set] files a project. *)
Definition map_key (projectId : value) : js_error + string :=
  match projectId with
  | VStr k => inr k
  | _ => inl (TypeError "The path argument must be of type string")
  end.

Definition error_body (error : string) (e : js_error) : value :=
  VObj [("error", VStr error); ("details", VStr (message e))].

(** The body of the loop of [/load-project], lines 61 to 65. *)
Definition write_entry (projectPath : string) (file : value) : M unit :=
  let* entry_path := lift (get_prop file "path") in
  let* filePath := lift (join_values [VStr projectPath; entry_path]) in
  let fileDir := dirname filePath in
  mkdir fileDir >>
  let* entry_content := lift (get_prop file "content") in
  writeFile filePath entry_content.


(** [app.post('/load-project', ...)]. *)
Definition load_project (e : env) (projectId files : value)
  : state → response * state * list event :=
  try_catch
    (if falsy projectId || falsy files || negb (isArray files) then
       ret {| status := 400;
              body := VObj [("error", VStr "Invalid request: projectId and files required")] |}
     else
       let* projectPath :=
         lift (join_values [VStr __dirname; VStr "projects"; projectId]) in
       mkdir projectPath >>
       for_of (match files with VArr items => items | _ => [] end)
              (write_entry projectPath) >>
       let* server := createViteServer e projectPath in
       let* key := lift (map_key projectId) in
       let* st := get_state in
       set_projects
         (map_set key
            {| vite := server;
               path := projectPath;
               files := match files with VArr items => items | _ => [] end;
               createdAt := now e |}
            (projects st)) >>
       ret {| status := 200;
              body := VObj [("success", VBool true);
                            ("projectId", projectId);
                            ("previewUrl", VStr ("/preview/" +:+ key))] |})
    (fun error =>
       ([EvConsoleError "Error loading project:"],
        {| status := 500; body := error_body "Failed to load project" error |})).

(** [app.post('/update-file', ...)]. *)
Definition update_file (e : env) (projectId path content : value)
  : state → response * state * list event :=
  try_catch
    (if falsy projectId || falsy path
        || match content with VUndefined => true | _ => false end then
       ret {| status := 400; body := VObj [("error", VStr "Invalid request")] |}
     else
       let* st := get_state in
       match projects_get projectId (projects st) with
       | None =>
           ret {| status := 404; body := VObj [("error", VStr "Project not found")] |}
       | Some {| vite := server; path := root |} =>
           let* filePath := lift (join_values [VStr root; path]) in
           writeFile filePath content >>
           (if getModuleById e server filePath then
              emit [EvInvalidateModule server filePath;
                    EvWsSend server filePath (now e)]
            else ret tt) >>
           ret {| status := 200; body := VObj [("success", VBool true)] |}
       end)
    (fun error =>
       ([EvConsoleError "Error updating file:"],
        {| status := 500; body := error_body "Failed to update file" error |})).

(** The retention threshold of the cleanup: 30 minutes, in milliseconds. *)
Definition MAX_AGE : Z := 30 * 60 * 1000.

Definition expired (t : Z) (p : project) : bool := (t - createdAt p >? MAX_AGE)%Z.

(** The loop of the cleanup interval, lines 199 to 208: [entries] is what
    the iterator still has to yield and [m] the map as it stands.  Deleting
    the entry just yielded does not disturb the iteration. *)
Fixpoint sweep (t : Z) (entries m : list (string * project))
  : list (string * project) * list event :=
  match entries with
  | [] => (m, [])
  | (projectId, p) :: rest =>
      if expired t p then
        let '(m', evs) := sweep t rest (map_delete projectId m) in
        (m', EvClose (vite p) :: EvRm (path p) :: evs)
      else sweep t rest m
  end.

(** One tick of [setInterval(..., 30 * 60 * 1000)] at time [t].  The tick
    only starts the deletions: [fs.rm] returns a promise that settles
    later. *)
Definition cleanup (t : Z) (st : state) : state * list event :=
  let '(m, evs) := sweep t (projects st) (projects st) in
  ({| projects := m; disk := disk st; servers := servers st |}, evs).

(** A deletion started by the cleanup settles: fulfilled, the directory is
    gone; rejected, [.catch(console.error)] logs and nothing else happens
    (what a failed deletion had already removed is not modelled). *)
Definition rm_settled (p : string) (fulfilled : bool) (st : state)
  : state * list event :=
  if fulfilled then
    ({| projects := projects st;
        disk := rm_recursive (disk st) p;
        servers := servers st |}, [])
  else (st, [EvConsoleError "rm failed"]).

(** [process.on('SIGTERM', ...)]: close every registered server, then
    exit. *)
Definition sigterm (st : state) : list event :=
  (map (fun kv => EvClose (vite kv.2)) (projects st) ++ [EvExit 0])%list.

End Server.

(** ** The routes beside the two handlers, and the configuration *)

(** *** Response headers

    Node keeps the headers of a response by lower-cased name:
    [res.setHeader] overwrites and [res.removeHeader] deletes whatever was
    set under any spelling of the name.  That Node refuses names and values
    that are not valid HTTP (it throws, and sets nothing) is not modelled. *)

(** [String.prototype.toLowerCase] on the letters A to Z; every other
    character is left as it is (no character outside ASCII lower-cases to
    an ASCII letter of [x-frame-options]). *)
Definition lower_char (c : ascii) : ascii :=
  let n := Ascii.nat_of_ascii c in
  if Nat.leb 65 n && Nat.leb n 90 then Ascii.ascii_of_nat (n + 32) else c.

Fixpoint toLowerCase (s : string) : string :=
  match s with
  | EmptyString => EmptyString
  | String c rest => String (lower_char c) (toLowerCase rest)
  end.

Definition setHeader (name value : string) (hs : gmap string string)
  : gmap string string :=
  <[toLowerCase name := value]> hs.

Definition removeHeader (name : string) (hs : gmap string string)
  : gmap string string :=
  delete (toLowerCase name) hs.

(** The middleware of lines 24 to 29, run for every request. *)
Definition allow_embedding (hs : gmap string string) : gmap string string :=
  setHeader "Access-Control-Allow-Origin" "*"
    (setHeader "Content-Security-Policy" "frame-ancestors *"
       (removeHeader "X-Frame-Options" hs)).

(** The function that lines 175 to 181 put in place of [res.setHeader]. *)
Definition guarded_setHeader (name value : string) (hs : gmap string string)
  : gmap string string :=
  if toLowerCase name =? "x-frame-options" then hs else setHeader name value hs.

(** What the engine does to the headers while it serves a request. *)
Inductive header_call : Type :=
  | CallSetHeader (name value : string)
  | CallRemoveHeader (name : string).

(** The engine sees the response with [res.setHeader] replaced;
    [res.removeHeader] is Node's own. *)
Definition engine_call (hs : gmap string string) (c : header_call)
  : gmap string string :=
  match c with
  | CallSetHeader name value => guarded_setHeader name value hs
  | CallRemoveHeader name => removeHeader name hs
  end.

(** What becomes of a request for a preview: the 404 of line 170, or the
    request handed to the engine of a server, with the headers the response
    has in the end, whoever writes it. *)
Inductive preview_outcome : Type :=
  | PreviewNotFound
  | PreviewServed (server : nat) (hs : gmap string string).

(** [app.use('/preview/:projectId', ...)]: [hs] are the headers set before
    the route is reached and [calls] what the project's engine then does
    through [res.setHeader] and [res.removeHeader].  The engine is given
    the [next] of the route (line 191): when it does not answer the request
    itself it passes it on, and [next] is what is then done to the headers
    of the same response, whose [res.setHeader] is still the function put
    in its place; [next] is empty when the engine answers.  No later route
    of this server matches a preview, so what runs then is express's final
    handler.  (Headers passed to [res.writeHead] are outside this
    model.) *)
Definition preview (calls next : list header_call) (projectId : string)
    (hs : gmap string string) (st : state) : preview_outcome :=
  match map_get projectId (projects st) with
  | None => PreviewNotFound
  | Some project =>
      let hs := removeHeader "X-Frame-Options" hs in
      let hs := guarded_setHeader "Content-Security-Policy" "frame-ancestors *" hs in
      let hs := guarded_setHeader "Cross-Origin-Embedder-Policy" "unsafe-none" hs in
      let hs := guarded_setHeader "Cross-Origin-Opener-Policy" "unsafe-none" hs in
      let hs := guarded_setHeader "Cross-Origin-Resource-Policy" "cross-origin" hs in
      let hs := fold_left engine_call calls hs in
      PreviewServed (vite project) (fold_left engine_call next hs)
  end.

(** [app.get('/health', ...)]: [uptime] is what [process.uptime()] returns
    and [timestamp] the clock. *)
Definition health (uptime : value) (timestamp : Z) (st : state) : response :=
  {| status := 200;
     body := VObj [("status", VStr "alive");
                   ("uptime", uptime);
                   ("timestamp", VNum timestamp);
                   ("activeProjects", VNum (Z.of_nat (length (projects st))))] |}.

(** *** The allow-list of origins *)

(** [s.split(sep)] for a separator of one character. *)
Fixpoint split_on (sep : ascii) (s : string) : list string :=
  match s with
  | EmptyString => [EmptyString]
  | String c rest =>
      if Ascii.eqb c sep then EmptyString :: split_on sep rest
      else match split_on sep rest with
           | seg :: segs => String c seg :: segs
           | [] => [String c EmptyString]
           end
  end.

Section Configuration.

(** [String.prototype.trim]; which characters count as white space is left
    to the runtime. *)
Variable trim : string → string.

(** Line 14: [variable] is [process.env.ALLOWED_ORIGINS], [None] when the
    variable is not set.  An array is truthy, so the default after [||] is
    taken only when [?.] has short-circuited. *)
Definition ALLOWED_ORIGINS (variable : option string) : list string :=
  match variable with
  | Some v => List.map trim (split_on ","%char v)
  | None => ["http://localhost:3000"]
  end.

End Configuration.

(** * Vocabulary of the properties *)

Open Scope list_scope.

(** ** Paths *)

(** Whether a string has a slash in it. *)
Fixpoint has_slash (s : string) : bool :=
  match s with
  | EmptyString => false
  | String c rest => Ascii.eqb c slash || has_slash rest
  end.

(** A segment that names a directory entry: not empty, not [.] or [..], and
    free of slashes. *)
Definition plain (s : string) : bool :=
  negb (s =? EmptyString) && negb (s =? ".") && negb (s =? "..")
  && negb (has_slash s).

(** [climbs p]: normalised on its own, [p] still begins with [..]; joined
    onto a directory it leaves that directory. *)
Definition climbs (p : string) : bool :=
  bool_decide (".." ∈ normalize_segments true [] (split_slash p)).

(** ** Effects of a computation on the disk *)

(** Between two disks, every key is unchanged, or a directory appeared where
    nothing was, or a regular file was written at a key allowed by [inside]
    that was not a directory. *)
Definition disk_step (inside : list string → Prop)
    (fs fs' : gmap (list string) node) : Prop :=
  ∀ k,
    fs' !! k = fs !! k
    ∨ (fs !! k = None ∧ fs' !! k = Some Dir)
    ∨ (inside k ∧ is_dir fs k = false ∧ ∃ d, fs' !! k = Some (File d)).

(** A write recorded in the trace went to a key allowed by [inside] that was
    not a directory of [fs]. *)
Definition fs_event (inside : list string → Prop)
    (fs : gmap (list string) node) (ev : event) : Prop :=
  match ev with
  | EvWriteFile p _ => inside (resolve p) ∧ is_dir fs (resolve p) = false
  | _ => True
  end.

(** [touches inside m]: whatever [m] returns or throws, it changed the disk
    by a [disk_step] and wrote files only at keys of [inside]. *)
Definition touches {A} (inside : list string → Prop) (m : M A) : Prop :=
  ∀ st r st' tr,
    m st = (r, st', tr) →
    disk_step inside (disk st) (disk st')
    ∧ Forall (fs_event inside (disk st)) tr.

(** ** Loads *)

(** The key a file entry is written to, if its [path] is a string. *)
Definition entry_at (projectPath : string) (file : value) (k : list string) : Prop :=
  ∃ p, get_prop file "path" = inr (VStr p) ∧ k = resolve (join [projectPath; p]).

Definition load_failed (error : js_error) : response :=
  {| status := 500; body := error_body "Failed to load project" error |}.

Definition load_succeeded (projectId : string) : response :=
  {| status := 200;
     body := VObj [("success", VBool true);
                   ("projectId", VStr projectId);
                   ("previewUrl", VStr ("/preview/" +:+ projectId))] |}.

(** Calls on the disk, as opposed to calls on a Vite server. *)
Definition fs_call (ev : event) : Prop :=
  match ev with
  | EvMkdir _ | EvWriteFile _ _ => True
  | _ => False
  end.

(** [disk_only m]: [m] leaves the map of projects and the servers alone and
    calls nothing but the file system. *)
Definition disk_only {A} (m : M A) : Prop :=
  ∀ st r st' tr,
    m st = (r, st', tr) →
    projects st' = projects st ∧ servers st' = servers st ∧ Forall fs_call tr.

(** [k] lies below the directory [dir], and is not [dir] itself. *)
Definition strictly_inside (dir k : list string) : Prop :=
  dir `prefix_of` k ∧ k ≠ dir.

(** The entry's path, if it is a string, does not climb. *)
Definition entry_stays (file : value) : bool :=
  match get_prop file "path" with
  | inr (VStr p) => negb (climbs p)
  | _ => true
  end.

Definition entries (files : value) : list value :=
  match files with VArr items => items | _ => [] end.












(** ** Updates *)

Definition update_failed (error : js_error) : response :=
  {| status := 500; body := error_body "Failed to update file" error |}.

Definition update_succeeded : response :=
  {| status := 200; body := VObj [("success", VBool true)] |}.

Definition invalid_request : response :=
  {| status := 400; body := VObj [("error", VStr "Invalid request")] |}.

Definition project_not_found : response :=
  {| status := 404; body := VObj [("error", VStr "Project not found")] |}.

(** The test of line 121. *)
Definition invalid_update (projectId target content : value) : bool :=
  falsy projectId || falsy target
  || match content with VUndefined => true | _ => false end.

(** The calls that tell the engine and its clients about a change. *)
Definition hmr_calls (e : env) (server : nat) (filePath : string) : list event :=
  if getModuleById e server filePath then
    [EvInvalidateModule server filePath; EvWsSend server filePath (now e)]
  else [].

Definition hmr_call (ev : event) : bool :=
  match ev with
  | EvInvalidateModule _ _ | EvWsSend _ _ _ => true
  | _ => false
  end.

(** ** Servers, cleanup and the life of the process *)

Definition is_close (h : nat) (ev : event) : bool :=
  match ev with EvClose h' => Nat.eqb h h' | _ => false end.

(** How many times the trace closes server [h]. *)
Definition closes (h : nat) (tr : list event) : nat :=
  length (List.filter (is_close h) tr).

(** The entries the cleanup at time [t] keeps, and those it evicts. *)
Definition kept (t : Z) (kv : string * project) : bool := negb (expired t kv.2).

Definition evicted (t : Z) (kv : string * project) : bool := expired t kv.2.

(** What the cleanup does for one evicted entry, besides deleting it from
    the map. *)
Definition eviction_calls (kv : string * project) : list event :=
  [EvClose (vite kv.2); EvRm (path kv.2)].

(** Requests for [/update-file], each with what it sees of its
    surroundings. *)
Definition update_request : Type := env * (value * value * value).

(** A server that exists and that the map of projects no longer holds. *)
Definition orphan (h : nat) (st : state) : Prop :=
  h < servers st ∧ h ∉ vite <$> (projects st).*2.

(** An id whose segments all name directory entries. *)
Definition plain_id (id : string) : bool := forallb plain (split_slash id).


Section Process.

Variable buffer_from : value → option string.
Variable __dirname : string.

(** The workspace of a project id: [join(__dirname, 'projects', projectId)]. *)
Definition workspace (projectId : string) : string :=
  join [__dirname; "projects"; projectId].

(** One turn of the event loop: a request handled, a tick of the cleanup
    interval, or a deletion settling. *)
Inductive step : state → list event → state → Prop :=
  | step_load e projectId files st :
      step st
        (load_project buffer_from __dirname e projectId files st).2
        (load_project buffer_from __dirname e projectId files st).1.2
  | step_update e projectId target content st :
      step st
        (update_file buffer_from e projectId target content st).2
        (update_file buffer_from e projectId target content st).1.2
  | step_cleanup t st :
      step st (cleanup t st).2 (cleanup t st).1
  | step_rm p fulfilled st :
      step st (rm_settled p fulfilled st).2 (rm_settled p fulfilled st).1.

Inductive steps : state → list event → state → Prop :=
  | steps_done st : steps st [] st
  | steps_more st tr st1 tr' st2 :
      step st tr st1 → steps st1 tr' st2 → steps st (tr ++ tr') st2.

(** The states the process can be in. *)
Definition reachable (st : state) : Prop := ∃ tr, steps initial tr st.

(** Keys are distinct, servers are distinct and were created earlier, and
    every project sits at the workspace of its key. *)
Definition registry_ok (st : state) : Prop :=
  NoDup (projects st).*1
  ∧ NoDup (vite <$> (projects st).*2)
  ∧ Forall (fun kv => vite kv.2 < servers st
                      ∧ path kv.2 = workspace kv.1) (projects st).

(** A run of update requests, one after the other. *)
Fixpoint run_updates (requests : list update_request) (st : state) : state :=
  match requests with
  | [] => st
  | (e, (projectId, target, content)) :: rest =>
      run_updates rest
        (update_file buffer_from e projectId target content st).1.2
  end.

End Process.

(** ** A deployment to run the handlers on *)

(** [Buffer.from] restricted to what is certain: strings. *)
Definition string_chunks (chunk : value) : option string :=
  match chunk with VStr s => Some s | _ => None end.

Definition app_dir : string := "/srv/app".

(** The engine starts; its module graphs are empty. *)
Definition quiet (t : Z) : env :=
  {| now := t; engine_starts := true; getModuleById := fun _ _ => false |}.

(** The engine starts; every file asked for has been compiled. *)
Definition compiled (t : Z) : env :=
  {| now := t; engine_starts := true; getModuleById := fun _ _ => true |}.

Definition file_entry (p c : string) : value :=
  VObj [("path", VStr p); ("content", VStr c)].

(** The scenario of the README: one project, one page. *)
Definition demo_load : response * state * list event :=
  load_project string_chunks app_dir (quiet 1000)
    (VStr "demo") (VArr [file_entry "/index.html" "<h1>hi</h1>"]) initial.

Definition demo_loaded : state := demo_load.1.2.

(** A load whose only entry climbs out of the workspace. *)
Definition escape_load : response * state * list event :=
  load_project string_chunks app_dir (quiet 1000)
    (VStr "demo") (VArr [file_entry "../../server.js" "pwned"]) initial.






(** An update for an id nobody loaded, without [content]. *)
Definition ghost_update : response * state * list event :=
  update_file string_chunks (quiet 2000) (VStr "ghost") (VStr "a.js") VUndefined
    demo_loaded.

(** An update of a loaded file with [content: null], the module graph being
    empty. *)
Definition null_update : response * state * list event :=
  update_file string_chunks (quiet 2000) (VStr "demo") (VStr "index.html") VNull
    demo_loaded.

(** Project [a] at time 0, then project [./a] a thousand seconds later:
    two keys of the map, one directory. *)
Definition alias_old : response * state * list event :=
  load_project string_chunks app_dir (quiet 0)
    (VStr "a") (VArr [file_entry "index.html" "A"]) initial.

Definition alias_young : response * state * list event :=
  load_project string_chunks app_dir (quiet 1000000)
    (VStr "./a") (VArr [file_entry "main.js" "B"]) alias_old.1.2.




(** Projects [a] and [b], one after the other. *)
Definition siblings : state :=
  (load_project string_chunks app_dir (quiet 2000) (VStr "b") (VArr [])
     (load_project string_chunks app_dir (quiet 1000) (VStr "a") (VArr [])
        initial).1.2).1.2.

(** The project of the README, loaded a second time. *)
Definition reload : response * state * list event :=
  load_project string_chunks app_dir (quiet 2000)
    (VStr "demo") (VArr [file_entry "/index.html" "<h1>again</h1>"]) demo_loaded.

(** ** The other routes, and more about the handlers *)

(** The test of line 49. *)
Definition load_invalid (projectId files : value) : bool :=
  falsy projectId || falsy files || negb (isArray files).

Definition bad_load_request : response :=
  {| status := 400;
     body := VObj [("error", VStr "Invalid request: projectId and files required")] |}.

(** Nothing that was on the disk [fs] is missing from [fs'] or has changed
    its kind: directories are still directories and files still files. *)
Definition persists (fs fs' : gmap (list string) node) : Prop :=
  ∀ k,
    match fs !! k with
    | Some Dir => fs' !! k = Some Dir
    | Some (File _) => ∃ d, fs' !! k = Some (File d)
    | None => True
    end.

(** The call is about the header stored under [key]. *)
Definition names_header (key : string) (c : header_call) : bool :=
  match c with
  | CallSetHeader name _ | CallRemoveHeader name => toLowerCase name =? key
  end.

(** The last of the calls that is about the header stored under [key]. *)
Fixpoint last_naming (key : string) (calls : list header_call)
  : option header_call :=
  match calls with
  | [] => None
  | c :: rest =>
      match last_naming key rest with
      | Some c' => Some c'
      | None => if names_header key c then Some c else None
      end
  end.

(** The headers the preview route sets before it hands over to the engine,
    by the key Node stores them under. *)
Definition permissive_headers : list (string * string) :=
  [("content-security-policy", "frame-ancestors *");
   ("cross-origin-embedder-policy", "unsafe-none");
   ("cross-origin-opener-policy", "unsafe-none");
   ("cross-origin-resource-policy", "cross-origin")].

(** How many times [sep] occurs in [s]. *)
Fixpoint occurrences (sep : ascii) (s : string) : nat :=
  match s with
  | EmptyString => 0
  | String c rest => (if Ascii.eqb c sep then 1 else 0) + occurrences sep rest
  end.

(** [segs.join(sep)]. *)
Fixpoint join_on (sep : ascii) (segs : list string) : string :=
  match segs with
  | [] => EmptyString
  | [s] => s
  | s :: rest => s +:+ String sep (join_on sep rest)
  end.

(** ** More requests to run the handlers on *)

(** The engine does not start. *)
Definition engine_down (t : Z) : env :=
  {| now := t; engine_starts := false; getModuleById := fun _ _ => false |}.

(** A load whose files are written and whose engine then fails. *)
Definition stillborn_load : response * state * list event :=
  load_project string_chunks app_dir (engine_down 1000)
    (VStr "demo") (VArr [file_entry "/index.html" "<h1>hi</h1>"]) initial.

(** A load for a new id into a process that already has one project. *)
Definition second_project : response * state * list event :=
  load_project string_chunks app_dir (quiet 2000)
    (VStr "other") (VArr [file_entry "main.js" "m"]) demo_loaded.

(** An update of the page of the README's project. *)
Definition page_update : response * state * list event :=
  update_file string_chunks (compiled 2000) (VStr "demo") (VStr "index.html")
    (VStr "<h1>new</h1>") demo_loaded.

(** What an engine might do to the headers: try to forbid framing, in two
    spellings, and set a content type. *)
Definition framing_engine : list header_call :=
  [CallSetHeader "X-Frame-Options" "DENY";
   CallSetHeader "Content-Type" "text/html";
   CallSetHeader "x-frame-options" "SAMEORIGIN"].

(** What a final handler does to the headers of a request that nothing has
    answered, before it writes its own page: the content headers go, a
    restrictive policy and the headers of the page are set. *)
Definition final_handler : list header_call :=
  [CallRemoveHeader "Content-Encoding";
   CallRemoveHeader "Content-Language";
   CallRemoveHeader "Content-Range";
   CallSetHeader "Content-Security-Policy" "default-src 'none'";
   CallSetHeader "X-Content-Type-Options" "nosniff";
   CallSetHeader "Content-Type" "text/html; charset=utf-8";
   CallSetHeader "Content-Length" "150"].

(** Headers of a response on which something has already forbidden
    framing. *)
Definition framed_headers : gmap string string :=
  setHeader "X-FRAME-OPTIONS" "DENY" ∅.

(** The session of the README's project. *)
Definition demo_session : project :=
  {| vite := 0; path := "/srv/app/projects/demo";
     files := [file_entry "/index.html" "<h1>hi</h1>"]; createdAt := 1000 |}.

(** The sessions of [siblings]. *)
Definition session_a : project :=
  {| vite := 0; path := "/srv/app/projects/a"; files := []; createdAt := 1000 |}.

Definition session_b : project :=
  {| vite := 1; path := "/srv/app/projects/b"; files := []; createdAt := 2000 |}.

(** The README's project from its load to its eviction by a tick of the
    cleanup: the calls made on the way, and the state at the end. *)
Definition evicted_run : list event :=
  demo_load.2 ++ ((cleanup 5000000 demo_loaded).2 ++ []).

Definition evicted_state : state := (cleanup 5000000 demo_loaded).1.

(** * Properties *)

(** ** Node's [path] on examples *)

Example join_plain : join ["/srv/app"; "projects"; "demo"] = "/srv/app/projects/demo".
Proof. reflexivity. Qed.

Example join_absolute_entry :
  join ["/srv/app/projects/demo"; "/app/page.tsx"] = "/srv/app/projects/demo/app/page.tsx".
Proof. reflexivity. Qed.

Example join_dotdot : join ["/srv/app/projects/demo"; "../../server.js"] = "/srv/app/server.js".
Proof. reflexivity. Qed.

Example join_trailing : join ["/srv/app"; "projects"; "a/"] = "/srv/app/projects/a/".
Proof. reflexivity. Qed.

Example join_above_root : join ["/a"; "../../../b"] = "/b".
Proof. reflexivity. Qed.

Example join_relative : join ["a"; "../../b/./c//"] = "../b/c/".
Proof. reflexivity. Qed.

Example dirname_file : dirname "/srv/app/projects/demo/src/main.jsx" = "/srv/app/projects/demo/src".
Proof. reflexivity. Qed.

Example dirname_trailing : dirname "/srv/app/projects/a/" = "/srv/app/projects".
Proof. reflexivity. Qed.

Example dirname_top : dirname "/x" = "/".
Proof. reflexivity. Qed.

(** ** Splitting and joining on slashes *)

Lemma split_slash_cons s : ∃ seg segs, split_slash s = seg :: segs.
Proof.
  induction s as [|c rest IH]; simpl; [by eauto|].
  destruct (Ascii.eqb c slash); [by eauto|].
  destruct IH as (seg & segs & ->). by eauto.
Qed.

Lemma split_slash_no_slash s : has_slash s = false → split_slash s = [s].
Proof.
  induction s as [|c rest IH]; simpl; [done|].
  destruct (Ascii.eqb c slash); simpl; [done|].
  intros H. by rewrite IH.
Qed.

Lemma split_slash_segments s :
  Forall (fun seg => has_slash seg = false) (split_slash s).
Proof.
  induction s as [|c rest IH]; simpl.
  - by repeat constructor.
  - destruct (Ascii.eqb c slash) eqn:Hc.
    + by constructor.
    + destruct (split_slash rest) as [|seg segs]; [by repeat constructor; simpl; rewrite Hc|].
      inversion_clear IH. constructor; [|done]. simpl. by rewrite Hc.
Qed.

Lemma split_slash_app a b :
  split_slash (a +:+ String slash b) = split_slash a ++ split_slash b.
Proof.
  induction a as [|c rest IH]; simpl; [done|].
  destruct (Ascii.eqb c slash); [by rewrite IH|].
  rewrite IH. by destruct (split_slash_cons rest) as (seg & segs & ->).
Qed.

Lemma split_join_slash segs :
  Forall (fun seg => has_slash seg = false) segs → segs ≠ [] →
  split_slash (join_slash segs) = segs.
Proof.
  induction segs as [|s rest IH]; [done|]. intros Hs _.
  inversion_clear Hs as [|?? Hhd Htl].
  destruct rest as [|s2 rest]; [by apply split_slash_no_slash|].
  change (join_slash (s :: s2 :: rest))
    with (s +:+ String slash (join_slash (s2 :: rest))).
  rewrite split_slash_app, IH by done.
  by rewrite split_slash_no_slash.
Qed.

Lemma join_slash_flat parts :
  parts ≠ [] → split_slash (join_slash parts) = flat_map split_slash parts.
Proof.
  induction parts as [|s rest IH]; [done|]. intros _.
  destruct rest as [|s2 rest]; [simpl; by rewrite app_nil_r|].
  change (join_slash (s :: s2 :: rest))
    with (s +:+ String slash (join_slash (s2 :: rest))).
  by rewrite split_slash_app, IH.
Qed.

(** ** Normalisation of segment lists *)

Lemma plain_spec s :
  plain s = true →
  (s =? EmptyString) = false ∧ (s =? ".") = false ∧ (s =? "..") = false
  ∧ has_slash s = false.
Proof.
  unfold plain. rewrite !andb_true_iff, !negb_true_iff. tauto.
Qed.

Lemma normalize_segments_app a res xs ys :
  normalize_segments a res (xs ++ ys)
  = normalize_segments a (rev (normalize_segments a res xs)) ys.
Proof.
  revert res. induction xs as [|x xs IH]; intros res; simpl.
  - by rewrite rev_involutive.
  - destruct ((x =? EmptyString) || (x =? ".")); [done|].
    destruct (x =? ".."); [|done].
    destruct res as [|top res']; [done|]. by destruct (top =? "..").
Qed.

Lemma normalize_segments_plain a res xs :
  Forall (fun s => plain s = true) xs →
  normalize_segments a res xs = rev res ++ xs.
Proof.
  intros Hxs. revert res. induction Hxs as [|x xs Hx _ IH]; intros res; simpl.
  - by rewrite app_nil_r.
  - destruct (plain_spec _ Hx) as (-> & -> & -> & _). simpl.
    rewrite IH. simpl. by rewrite <- app_assoc.
Qed.

Lemma normalize_segments_absolute res xs :
  Forall (fun s => plain s = true) res →
  Forall (fun s => has_slash s = false) xs →
  Forall (fun s => plain s = true) (normalize_segments false res xs).
Proof.
  intros Hres Hxs. revert res Hres.
  induction Hxs as [|x xs Hx _ IH]; intros res Hres; simpl.
  - by apply Forall_rev.
  - destruct (x =? EmptyString) eqn:H1; simpl; [by apply IH|].
    destruct (x =? ".") eqn:H2; simpl; [by apply IH|].
    destruct (x =? "..") eqn:H3.
    + destruct res as [|top res']; [by apply IH|].
      inversion_clear Hres. destruct (top =? ".."); apply IH; by try constructor.
    + apply IH. constructor; [|done].
      unfold plain. by rewrite H1, H2, H3, Hx.
Qed.

Lemma resolve_plain p : Forall (fun s => plain s = true) (resolve p).
Proof.
  apply normalize_segments_absolute; [done|apply split_slash_segments].
Qed.

Lemma normalize_segments_skip_empty a res xs :
  normalize_segments a res (EmptyString :: xs) = normalize_segments a res xs.
Proof. done. Qed.

(** ** [path.join] on an absolute first argument *)

Lemma starts_with_slash_nonempty p :
  starts_with_slash p = true → (p =? EmptyString) = false.
Proof. by destruct p. Qed.

Lemma join_slash_nil segs :
  Forall (fun s => plain s = true) segs →
  (join_slash segs =? EmptyString) = true → segs = [].
Proof.
  intros Hsegs. destruct Hsegs as [|s rest Hs _]; [done|].
  destruct (plain_spec _ Hs) as (Hne & _).
  destruct s as [|c s]; [done|]. by destruct rest.
Qed.

Lemma starts_with_slash_normalize p :
  starts_with_slash p = true → starts_with_slash (normalize p) = true.
Proof.
  intros Hp. unfold normalize.
  rewrite (starts_with_slash_nonempty _ Hp), Hp.
  by destruct (_ =? EmptyString).
Qed.

Lemma resolve_normalize p :
  starts_with_slash p = true → resolve (normalize p) = resolve p.
Proof.
  intros Hp. unfold normalize.
  rewrite (starts_with_slash_nonempty _ Hp), Hp. cbn [negb].
  fold (resolve p). pose proof (resolve_plain p) as Hplain.
  assert (Forall (fun s => has_slash s = false) (resolve p)) as Hns.
  { eapply Forall_impl; [exact Hplain|]. intros s Hs. by apply plain_spec. }
  destruct (join_slash (resolve p) =? EmptyString) eqn:Hbody.
  - by rewrite (join_slash_nil _ Hplain Hbody).
  - assert (resolve p ≠ []) as Hne by (intros Hnil; by rewrite Hnil in Hbody).
    destruct (ends_with_slash p).
    + change (resolve (String slash (join_slash (resolve p) +:+ String slash EmptyString))
              = resolve p).
      unfold resolve at 1. simpl split_slash.
      rewrite normalize_segments_skip_empty, split_slash_app, split_join_slash by done.
      rewrite normalize_segments_app.
      rewrite (normalize_segments_plain _ _ (resolve p)) by done.
      simpl. by rewrite rev_involutive.
    + change (resolve (String slash (join_slash (resolve p))) = resolve p).
      unfold resolve at 1. simpl split_slash.
      rewrite normalize_segments_skip_empty, split_join_slash by done.
      by rewrite normalize_segments_plain.
Qed.

Lemma normalize_segments_filter a res args :
  normalize_segments a res
    (flat_map split_slash (List.filter (fun x => negb (x =? EmptyString)) args))
  = normalize_segments a res (flat_map split_slash args).
Proof.
  revert res. induction args as [|x args IH]; intros res; [done|].
  simpl. destruct (String.eqb_spec x EmptyString) as [->|Hx]; simpl.
  - by rewrite IH.
  - by rewrite !normalize_segments_app, IH.
Qed.

Lemma join_absolute a rest :
  starts_with_slash a = true →
  join (a :: rest)
  = normalize (join_slash (a :: List.filter (fun x => negb (x =? EmptyString)) rest))
  ∧ starts_with_slash
      (join_slash (a :: List.filter (fun x => negb (x =? EmptyString)) rest)) = true.
Proof.
  intros Ha. unfold join. simpl.
  rewrite (starts_with_slash_nonempty _ Ha). simpl. split; [done|].
  destruct a as [|c a]; [done|].
  by destruct (List.filter _ rest).
Qed.

Lemma starts_with_slash_join a rest :
  starts_with_slash a = true → starts_with_slash (join (a :: rest)) = true.
Proof.
  intros Ha. destruct (join_absolute a rest Ha) as [-> Habs].
  by apply starts_with_slash_normalize.
Qed.

Lemma resolve_join a rest :
  starts_with_slash a = true →
  resolve (join (a :: rest))
  = normalize_segments false [] (flat_map split_slash (a :: rest)).
Proof.
  intros Ha. destruct (join_absolute a rest Ha) as [-> Habs].
  rewrite resolve_normalize by done. unfold resolve.
  rewrite join_slash_flat by done. simpl.
  by rewrite !normalize_segments_app, normalize_segments_filter.
Qed.

(** Joining one more argument onto an absolute path continues the
    normalisation from the segments of that path. *)
Lemma resolve_join2 a b :
  starts_with_slash a = true →
  resolve (join [a; b]) = normalize_segments false (rev (resolve a)) (split_slash b).
Proof.
  intros Ha. rewrite resolve_join by done. simpl.
  by rewrite app_nil_r, normalize_segments_app.
Qed.

(** ** Entry paths that stay below their starting point *)

Lemma dotdot_persists segs res :
  ".." ∈ res → ".." ∈ normalize_segments true res segs.
Proof.
  revert res. induction segs as [|x segs IH]; intros res Hin; simpl.
  - apply list_elem_of_In, (proj1 (in_rev res "..")). by apply list_elem_of_In.
  - destruct ((x =? EmptyString) || (x =? ".")); [by apply IH|].
    destruct (x =? "..").
    + destruct res as [|top res']; [by apply elem_of_nil in Hin|].
      destruct (String.eqb_spec top "..") as [->|Htop].
      * apply IH. by constructor.
      * apply IH. apply elem_of_cons in Hin as [Heq|Hin]; [by subst|done].
    + apply IH. by constructor.
Qed.

Lemma normalize_segments_below base segs res :
  ".." ∉ normalize_segments true res segs →
  normalize_segments false (res ++ base) segs
  = rev base ++ normalize_segments true res segs.
Proof.
  revert res. induction segs as [|x segs IH]; intros res Hno; simpl in *.
  - by rewrite rev_app_distr.
  - destruct ((x =? EmptyString) || (x =? ".")); [by apply IH|].
    destruct (x =? "..").
    + destruct res as [|top res'].
      * exfalso. apply Hno, dotdot_persists. by constructor.
      * simpl. destruct (top =? "..").
        -- exfalso. apply Hno, dotdot_persists. by constructor.
        -- by apply IH.
    + by apply (IH (x :: res)).
Qed.

(** ** How the file-system calls change the disk *)

Lemma disk_step_refl inside fs : disk_step inside fs fs.
Proof. intros k. by left. Qed.

Lemma disk_step_mono (inside inside' : list string → Prop) fs fs' :
  (∀ k, inside k → inside' k) →
  disk_step inside fs fs' → disk_step inside' fs fs'.
Proof. intros Himp H k. destruct (H k) as [?|[?|(? & ? & ?)]]; eauto 6. Qed.

Lemma is_dir_lookup fs fs' k : fs' !! k = fs !! k → is_dir fs' k = is_dir fs k.
Proof. intros H. unfold is_dir. by rewrite H. Qed.

Lemma disk_step_trans inside fs1 fs2 fs3 :
  disk_step inside fs1 fs2 → disk_step inside fs2 fs3 → disk_step inside fs1 fs3.
Proof.
  intros H12 H23 k.
  destruct (H12 k) as [E1|[[N1 D1]|(I1 & F1 & d1 & W1)]],
           (H23 k) as [E2|[[N2 D2]|(I2 & F2 & d2 & W2)]].
  - left. congruence.
  - right; left. split; congruence.
  - right; right. rewrite (is_dir_lookup _ _ _ E1) in F2. eauto.
  - right; left. split; congruence.
  - congruence.
  - exfalso. unfold is_dir in F2. rewrite D1 in F2. by destruct k.
  - right; right. split; [done|]. split; [done|]. exists d1. congruence.
  - congruence.
  - right; right. eauto.
Qed.

(** Directories stay directories. *)
Lemma disk_step_is_dir inside fs fs' k :
  disk_step inside fs fs' → is_dir fs k = true → is_dir fs' k = true.
Proof.
  intros H Hdir. destruct (H k) as [E|[[N D]|(_ & F & _)]].
  - by rewrite (is_dir_lookup _ _ _ E).
  - unfold is_dir. rewrite D. by destruct k.
  - congruence.
Qed.

Lemma disk_step_insert_dir inside fs k :
  fs !! k = None → disk_step inside fs (<[k := Dir]> fs).
Proof.
  intros Hk k'. destruct (decide (k = k')) as [<-|Hne].
  - right; left. by rewrite lookup_insert_eq.
  - left. by rewrite lookup_insert_ne.
Qed.

Lemma disk_step_insert_file fs k d :
  is_dir fs k = false → disk_step (fun k' => k' = k) fs (<[k := File d]> fs).
Proof.
  intros Hk k'. destruct (decide (k = k')) as [<-|Hne].
  - right; right. rewrite lookup_insert_eq. eauto.
  - left. by rewrite lookup_insert_ne.
Qed.

Lemma mkdir_walk_step segs fs pre fs' :
  mkdir_walk fs pre segs = inr fs' → disk_step (fun _ => False) fs fs'.
Proof.
  revert fs pre. induction segs as [|s rest IH]; intros fs pre; simpl.
  - intros [= <-]. apply disk_step_refl.
  - destruct (fs !! (pre ++ [s])) as [[|d]|] eqn:Hcur; [by eauto|done|].
    intros H. eapply disk_step_trans; [|by eauto].
    by apply disk_step_insert_dir.
Qed.

Lemma mkdir_walk_is_dir segs fs pre fs' :
  mkdir_walk fs pre segs = inr fs' →
  is_dir fs pre = true → is_dir fs' (pre ++ segs) = true.
Proof.
  revert fs pre. induction segs as [|s rest IH]; intros fs pre; simpl.
  - intros [= <-]. by rewrite app_nil_r.
  - replace (pre ++ s :: rest) with ((pre ++ [s]) ++ rest)
      by (by rewrite <- app_assoc).
    destruct (fs !! (pre ++ [s])) as [[|d]|] eqn:Hcur; [|done|].
    + intros H _. apply (IH _ _ H). unfold is_dir. rewrite Hcur.
      by destruct (pre ++ [s]).
    + intros H _. apply (IH _ _ H). unfold is_dir. rewrite lookup_insert_eq.
      by destruct (pre ++ [s]).
Qed.

Lemma mkdir_recursive_walk fs p fs' :
  mkdir_recursive fs p = inr fs' → mkdir_walk fs [] (resolve p) = inr fs'.
Proof. unfold mkdir_recursive. by destruct (path_refused p). Qed.

Lemma open_w_key fs p k :
  open_w fs p = inr k → k = resolve p ∧ is_dir fs k = false.
Proof.
  unfold open_w. destruct (path_refused p); [done|].
  destruct (ends_with_slash p); [done|].
  destruct (resolve p) as [|s segs] eqn:Hres; [done|].
  destruct (is_dir fs (removelast (s :: segs))).
  - destruct (fs !! (s :: segs)) as [[|d]|] eqn:Hk; [done| |];
      intros [= <-]; split; try done; unfold is_dir; by rewrite Hk.
  - by destruct (fs !! removelast (s :: segs)) as [[|d]|].
Qed.

(** ** Reasoning about computations *)

Lemma bind_inv {A B} (m : M A) (k : A → M B) st r st' tr :
  bind m k st = (r, st', tr) →
  (∃ e, m st = (inl e, st', tr) ∧ r = inl e)
  ∨ (∃ a st1 tr1 tr2,
        m st = (inr a, st1, tr1) ∧ k a st1 = (r, st', tr2) ∧ tr = tr1 ++ tr2).
Proof.
  unfold bind. destruct (m st) as [[[e|a] st1] tr1].
  - intros [= <- <- <-]. left. by eauto.
  - destruct (k a st1) as [[r2 st2] tr2] eqn:Hk.
    intros [= <- <- <-]. right. by eauto 8.
Qed.

Lemma fs_event_earlier inside fs fs' ev :
  disk_step inside fs fs' → fs_event inside fs' ev → fs_event inside fs ev.
Proof.
  intros Hstep. destruct ev; simpl; try done.
  intros [Hin Hdir]. split; [done|].
  destruct (is_dir fs (resolve p)) eqn:Hd; [|done].
  by rewrite (disk_step_is_dir _ _ _ _ Hstep Hd) in Hdir.
Qed.

Lemma touches_mono {A} (inside inside' : list string → Prop) (m : M A) :
  (∀ k, inside k → inside' k) → touches inside m → touches inside' m.
Proof.
  intros Himp Hm st r st' tr Hrun. destruct (Hm _ _ _ _ Hrun) as [Hd Hev].
  split; [by eapply disk_step_mono|].
  eapply Forall_impl; [exact Hev|]. intros ev. destruct ev; simpl; try done.
  intros [Hin Hdir]. by auto.
Qed.

Lemma touches_ret {A} inside (a : A) : touches inside (ret a).
Proof. intros st r st' tr [= <- <- <-]. split; [apply disk_step_refl|done]. Qed.

Lemma touches_throw {A} inside e : touches inside (@throw A e).
Proof. intros st r st' tr [= <- <- <-]. split; [apply disk_step_refl|done]. Qed.

Lemma touches_lift {A} inside (x : js_error + A) : touches inside (lift x).
Proof. destruct x; [apply touches_throw|apply touches_ret]. Qed.



Lemma touches_bind {A B} inside (m : M A) (k : A → M B) :
  touches inside m → (∀ a, touches inside (k a)) → touches inside (bind m k).
Proof.
  intros Hm Hk st r st' tr Hrun.
  apply bind_inv in Hrun as [(e & Hrun & _)|(a & st1 & tr1 & tr2 & H1 & H2 & ->)].
  - by apply (Hm _ _ _ _ Hrun).
  - destruct (Hm _ _ _ _ H1) as [Hd1 He1], (Hk _ _ _ _ _ H2) as [Hd2 He2].
    split; [by eapply disk_step_trans|].
    apply Forall_app. split; [done|].
    eapply Forall_impl; [exact He2|]. intros ev. by apply fs_event_earlier.
Qed.

Lemma touches_for_of {A} (inside : A → list string → Prop) xs (body : A → M unit) :
  (∀ x, x ∈ xs → touches (inside x) (body x)) →
  touches (fun k => ∃ x, x ∈ xs ∧ inside x k) (for_of xs body).
Proof.
  induction xs as [|x xs IH]; intros Hbody; simpl.
  - apply touches_ret.
  - apply touches_bind.
    + eapply touches_mono; [|apply Hbody; by constructor].
      intros k Hk. exists x. split; [by constructor|done].
    + intros _. eapply touches_mono; [|apply IH].
      * intros k (y & Hy & Hk). exists y. split; [by constructor|done].
      * intros y Hy. apply Hbody. by constructor.
Qed.

Lemma mkdir_run p st :
  mkdir p st
  = match mkdir_recursive (disk st) p with
    | inl e => (inl e, st, [])
    | inr fs =>
        (inr tt, {| projects := projects st; disk := fs; servers := servers st |},
         [EvMkdir p])
    end.
Proof.
  unfold mkdir, bind, get_state, lift, set_disk, emit, throw, ret; simpl.
  by destruct (mkdir_recursive (disk st) p).
Qed.

Lemma touches_mkdir inside p : touches inside (mkdir p).
Proof.
  intros st r st' tr. rewrite mkdir_run.
  destruct (mkdir_recursive (disk st) p) as [e|fs] eqn:Hmk; intros [= <- <- <-].
  - split; [apply disk_step_refl|done].
  - split; [|by repeat constructor]. simpl.
    eapply disk_step_mono; [|by eapply mkdir_walk_step, mkdir_recursive_walk]. done.
Qed.

(** After a successful [mkdir], the directory is there. *)
Lemma mkdir_is_dir p st st' tr :
  mkdir p st = (inr tt, st', tr) → is_dir (disk st') (resolve p) = true.
Proof.
  rewrite mkdir_run. destruct (mkdir_recursive (disk st) p) as [e|fs] eqn:Hmk; [done|].
  intros [= <- <-]. simpl.
  by apply (mkdir_walk_is_dir _ _ [] _ (mkdir_recursive_walk _ _ _ Hmk)).
Qed.

Lemma bind_ret {A B} (a : A) (k : A → M B) st : bind (ret a) k st = k a st.
Proof. unfold bind, ret. by destruct (k a st) as [[r st'] tr]. Qed.

Lemma bind_get_state {B} (k : state → M B) st : bind get_state k st = k st st.
Proof. unfold bind, get_state. by destruct (k st st) as [[r st'] tr]. Qed.


Section Materializer.

Variable buffer_from : value → option string.

Lemma writeFile_string p c st :
  writeFile buffer_from p (VStr c) st
  = match open_w (disk st) p with
    | inl e => (inl e, st, [])
    | inr k =>
        (inr tt,
         {| projects := projects st; disk := <[k := File c]> (disk st);
            servers := servers st |},
         [EvWriteFile p (VStr c)])
    end.
Proof.
  unfold writeFile, bind, get_state, lift, set_disk, emit, throw, ret; simpl.
  by destruct (open_w (disk st) p).
Qed.

Lemma writeFile_array p chunks st :
  writeFile buffer_from p (VArr chunks) st
  = match open_w (disk st) p with
    | inl e => (inl e, st, [])
    | inr k =>
        let st' :=
          {| projects := projects st;
             disk := <[k := File (write_chunks buffer_from chunks EmptyString).1]> (disk st);
             servers := servers st |} in
        match (write_chunks buffer_from chunks EmptyString).2 with
        | None => (inr tt, st', [EvWriteFile p (VArr chunks)])
        | Some e => (inl e, st', [])
        end
    end.
Proof.
  unfold writeFile, bind, get_state, lift, set_disk, emit, throw, ret; simpl.
  destruct (open_w (disk st) p); [done|].
  by destruct (write_chunks buffer_from chunks EmptyString) as [w [e|]].
Qed.

Lemma touches_writeFile p data :
  touches (fun k => k = resolve p) (writeFile buffer_from p data).
Proof.
  intros st r st' tr.
  destruct data; try (intros [= <- <- <-]; split; [apply disk_step_refl|done]).
  - rewrite writeFile_string. destruct (open_w (disk st) p) as [e|k] eqn:Hopen;
      intros [= <- <- <-]; [split; [apply disk_step_refl|done]|].
    apply open_w_key in Hopen as [-> Hdir]. simpl.
    split; [by apply disk_step_insert_file|]. by repeat constructor.
  - rewrite writeFile_array. destruct (open_w (disk st) p) as [e|k] eqn:Hopen;
      [intros [= <- <- <-]; split; [apply disk_step_refl|done]|].
    apply open_w_key in Hopen as [-> Hdir]. simpl.
    destruct (write_chunks buffer_from items EmptyString).2;
      intros [= <- <- <-]; simpl;
      (split; [by apply disk_step_insert_file|by repeat constructor]).
Qed.

Lemma write_entry_run projectPath file p st :
  get_prop file "path" = inr (VStr p) →
  write_entry buffer_from projectPath file st
  = (mkdir (dirname (join [projectPath; p])) >>
     let* entry_content := lift (get_prop file "content") in
     writeFile buffer_from (join [projectPath; p]) entry_content) st.
Proof.
  intros Hp. unfold write_entry. rewrite Hp. simpl lift.
  rewrite bind_ret. simpl lift. by rewrite bind_ret.
Qed.

Lemma write_entry_throws projectPath file st :
  (∀ p, get_prop file "path" ≠ inr (VStr p)) →
  ∃ e, write_entry buffer_from projectPath file st = (inl e, st, []).
Proof.
  intros Hp. unfold write_entry.
  destruct (get_prop file "path") as [e|v]; [by eauto|].
  simpl lift. rewrite bind_ret.
  destruct v; try (by eauto). by destruct (Hp s).
Qed.

Lemma touches_write_entry projectPath file :
  touches (entry_at projectPath file) (write_entry buffer_from projectPath file).
Proof.
  intros st r st' tr Hrun.
  destruct (get_prop file "path") as [e|v] eqn:Hp.
  - destruct (write_entry_throws projectPath file st) as [e' He'];
      [intros p; congruence|].
    rewrite He' in Hrun. injection Hrun as <- <- <-.
    split; [apply disk_step_refl|done].
  - assert (∀ w, get_prop file "path" = inr w → (∀ p, w ≠ VStr p) →
            disk_step (entry_at projectPath file) (disk st) (disk st')
            ∧ Forall (fs_event (entry_at projectPath file) (disk st)) tr) as Hother.
    { intros w Hw Hne.
      destruct (write_entry_throws projectPath file st) as [e' He'].
      { intros p Hp'. apply (Hne p). congruence. }
      rewrite He' in Hrun. injection Hrun as <- <- <-.
      split; [apply disk_step_refl|done]. }
    destruct v as [| | | |p| |]; try (by apply (Hother _ Hp)).
    rewrite (write_entry_run _ _ _ _ Hp) in Hrun. revert Hrun.
    apply touches_bind; [apply touches_mkdir|]. intros _.
    apply touches_bind; [apply touches_lift|]. intros c.
    eapply touches_mono; [|apply touches_writeFile].
    intros k ->. by exists p.
Qed.


End Materializer.

(** ** [/load-project], step by step *)

Section LoadProject.

Variable buffer_from : value → option string.
Variable __dirname : string.

Lemma load_project_invalid e projectId files st :
  falsy projectId || falsy files || negb (isArray files) = true →
  load_project buffer_from __dirname e projectId files st
  = ({| status := 400;
        body := VObj [("error", VStr "Invalid request: projectId and files required")] |},
     st, []).
Proof. intros H. unfold load_project, try_catch. by rewrite H. Qed.

Lemma load_project_not_string e projectId files st :
  falsy projectId || falsy files || negb (isArray files) = false →
  (∀ k, projectId ≠ VStr k) →
  ∃ error,
    load_project buffer_from __dirname e projectId files st
    = (load_failed error, st, [EvConsoleError "Error loading project:"]).
Proof.
  intros H Hk. unfold load_project, try_catch. rewrite H.
  destruct projectId; try (by eexists); by destruct (Hk s).
Qed.

(** The run of a request that passes validation with a string id. *)
Lemma load_project_run e k items st :
  (k =? EmptyString) = false →
  load_project buffer_from __dirname e (VStr k) (VArr items) st
  = match mkdir (workspace __dirname k) st with
    | (inl error, st1, tr1) =>
        (load_failed error, st1, tr1 ++ [EvConsoleError "Error loading project:"])
    | (inr _, st1, tr1) =>
        match for_of items (write_entry buffer_from (workspace __dirname k)) st1 with
        | (inl error, st2, tr2) =>
            (load_failed error, st2,
             (tr1 ++ tr2) ++ [EvConsoleError "Error loading project:"])
        | (inr _, st2, tr2) =>
            if engine_starts e then
              (load_succeeded k,
               {| projects :=
                    map_set k
                      {| vite := servers st2; path := workspace __dirname k;
                         files := items; createdAt := now e |}
                      (projects st2);
                  disk := disk st2;
                  servers := S (servers st2) |},
               tr1 ++ tr2 ++ [EvCreateServer (servers st2) (workspace __dirname k)])
            else
              (load_failed (EngineError "failed to start the dev server"), st2,
               (tr1 ++ tr2 ++ []) ++ [EvConsoleError "Error loading project:"])
        end
    end.
Proof.
  intros Hk. unfold load_project, try_catch, falsy, truthy, isArray.
  rewrite Hk. simpl.
  fold (workspace __dirname k). unfold bind at 1. simpl.
  unfold bind at 1.
  destruct (mkdir (workspace __dirname k) st) as [[[error|[]] st1] tr1]; [done|].
  unfold bind at 1.
  destruct (for_of items _ st1) as [[[error|[]] st2] tr2]; [done|].
  unfold createViteServer. destruct (engine_starts e); [|done].
  by unfold bind.
Qed.

End LoadProject.

(** ** What the file-system calls leave alone *)

Lemma disk_only_ret {A} (a : A) : disk_only (ret a).
Proof. by intros st r st' tr [= <- <- <-]. Qed.

Lemma disk_only_throw {A} e : disk_only (@throw A e).
Proof. by intros st r st' tr [= <- <- <-]. Qed.

Lemma disk_only_lift {A} (x : js_error + A) : disk_only (lift x).
Proof. destruct x; [apply disk_only_throw|apply disk_only_ret]. Qed.

Lemma disk_only_bind {A B} (m : M A) (k : A → M B) :
  disk_only m → (∀ a, disk_only (k a)) → disk_only (bind m k).
Proof.
  intros Hm Hk st r st' tr Hrun.
  apply bind_inv in Hrun as [(e & Hrun & _)|(a & st1 & tr1 & tr2 & H1 & H2 & ->)].
  - by apply (Hm _ _ _ _ Hrun).
  - destruct (Hm _ _ _ _ H1) as (P1 & S1 & T1), (Hk _ _ _ _ _ H2) as (P2 & S2 & T2).
    repeat split; [congruence|congruence|]. by apply Forall_app.
Qed.

Lemma disk_only_for_of {A} xs (body : A → M unit) :
  (∀ x, disk_only (body x)) → disk_only (for_of xs body).
Proof.
  intros Hbody. induction xs as [|x xs IH]; simpl.
  - apply disk_only_ret.
  - by apply disk_only_bind.
Qed.

Lemma disk_only_mkdir p : disk_only (mkdir p).
Proof.
  intros st r st' tr. rewrite mkdir_run.
  destruct (mkdir_recursive (disk st) p); intros [= <- <- <-]; simpl;
    by repeat constructor.
Qed.

Lemma disk_only_writeFile buffer_from p data :
  disk_only (writeFile buffer_from p data).
Proof.
  intros st r st' tr.
  destruct data; try (by intros [= <- <- <-]).
  - rewrite writeFile_string. destruct (open_w (disk st) p);
      intros [= <- <- <-]; simpl; by repeat constructor.
  - rewrite writeFile_array. destruct (open_w (disk st) p); simpl;
      [by intros [= <- <- <-]|].
    destruct (write_chunks buffer_from items EmptyString).2;
      intros [= <- <- <-]; simpl; by repeat constructor.
Qed.

Lemma disk_only_write_entry buffer_from projectPath file :
  disk_only (write_entry buffer_from projectPath file).
Proof.
  unfold write_entry.
  apply disk_only_bind; [apply disk_only_lift|]. intros entry_path.
  apply disk_only_bind; [apply disk_only_lift|]. intros filePath.
  apply disk_only_bind; [apply disk_only_mkdir|]. intros _.
  apply disk_only_bind; [apply disk_only_lift|]. intros c.
  apply disk_only_writeFile.
Qed.

Lemma disk_only_materialize buffer_from projectPath items :
  disk_only (for_of items (write_entry buffer_from projectPath)).
Proof. apply disk_only_for_of. intros file. apply disk_only_write_entry. Qed.

(** ** Where a load writes *)

Lemma valid_load_request k files :
  falsy (VStr k) || falsy files || negb (isArray files) = false →
  (k =? EmptyString) = false ∧ files = VArr (entries files).
Proof.
  rewrite !orb_false_iff. unfold falsy; simpl. rewrite !negb_false_iff.
  intros [[Hk _] Harr]. split; [by destruct (k =? EmptyString)|].
  by destruct files.
Qed.

Section Confinement.

Variable buffer_from : value → option string.
Variable __dirname : string.
Hypothesis dirname_absolute : starts_with_slash __dirname = true.

Lemma workspace_absolute k : starts_with_slash (workspace __dirname k) = true.
Proof. by apply starts_with_slash_join. Qed.

Lemma entry_key_inside k p :
  climbs p = false →
  resolve (join [workspace __dirname k; p])
  = resolve (workspace __dirname k) ++ normalize_segments true [] (split_slash p).
Proof.
  intros Hp. apply bool_decide_eq_false in Hp.
  rewrite resolve_join2 by apply workspace_absolute.
  rewrite <- (rev_involutive (resolve (workspace __dirname k))) at 2.
  by apply (normalize_segments_below _ _ []).
Qed.

(** What the stages of a load do to the disk: [mkdir] of the workspace
    writes no file; the loop writes files only where its entries point, and
    never over a directory that was there when the loop began. *)
Lemma load_project_disk e k files st r st' tr :
  falsy (VStr k) || falsy files || negb (isArray files) = false →
  load_project buffer_from __dirname e (VStr k) files st = (r, st', tr) →
  ∃ st1 tr1 tr2,
    disk_step (fun _ => False) (disk st) (disk st1)
    ∧ (is_dir (disk st1) (resolve (workspace __dirname k)) = true ∨ st' = st1 ∧ tr2 = [])
    ∧ disk_step
        (fun key => ∃ x, x ∈ entries files ∧ entry_at (workspace __dirname k) x key)
        (disk st1) (disk st')
    ∧ Forall (fs_event (fun _ => False) (disk st)) tr1
    ∧ Forall
        (fs_event
           (fun key => ∃ x, x ∈ entries files ∧ entry_at (workspace __dirname k) x key)
           (disk st1)) tr2
    ∧ ∀ p data, EvWriteFile p data ∈ tr → EvWriteFile p data ∈ tr1 ++ tr2.
Proof.
  intros Hvalid Hrun. destruct (valid_load_request _ _ Hvalid) as [Hk Hfiles].
  rewrite Hfiles, load_project_run in Hrun by done.
  destruct (mkdir (workspace __dirname k) st) as [[res1 st1] tr1] eqn:Hmk.
  destruct (touches_mkdir (fun _ => False) _ _ _ _ _ Hmk) as [Hd1 He1].
  exists st1, tr1.
  destruct res1 as [error|[]].
  - injection Hrun as <- <- <-. exists []. repeat split; try done.
    + by right.
    + apply disk_step_refl.
    + intros p data Hin. rewrite app_nil_r.
      apply elem_of_app in Hin as [Hin|Hin]; [done|].
      by apply list_elem_of_singleton in Hin.
  - destruct (for_of (entries files) _ st1) as [[res2 st2] tr2] eqn:Hloop.
    destruct (touches_for_of (entry_at (workspace __dirname k)) (entries files)
                (write_entry buffer_from (workspace __dirname k))
                (fun x _ => touches_write_entry buffer_from _ x)
                _ _ _ _ Hloop) as [Hd2 He2].
    exists tr2.
    assert (disk st' = disk st2
            ∧ ∀ p data, EvWriteFile p data ∈ tr → EvWriteFile p data ∈ tr1 ++ tr2)
      as [Hdisk Htr].
    { destruct res2 as [error|[]]; [|destruct (engine_starts e)];
        injection Hrun as <- <- <-; (split; [done|]); intros p data;
        rewrite ?app_nil_r, ?app_assoc; intros Hin;
        apply elem_of_app in Hin as [Hin|Hin]; try done;
        by apply list_elem_of_singleton in Hin. }
    rewrite Hdisk. repeat split; try done.
    left. by apply (mkdir_is_dir _ _ _ _ Hmk).
Qed.

(** C1, amended: a load whose entry paths do not climb writes every file
    strictly inside the workspace of its project id.  Absolute entry paths
    are among them: [join] roots them at the workspace. *)
Theorem load_project_confined e k files st r st' tr :
  load_project buffer_from __dirname e (VStr k) files st = (r, st', tr) →
  forallb entry_stays (entries files) = true →
  (∀ key d,
      disk st' !! key = Some (File d) → disk st !! key ≠ Some (File d) →
      strictly_inside (resolve (workspace __dirname k)) key)
  ∧ (∀ p data,
        EvWriteFile p data ∈ tr →
        strictly_inside (resolve (workspace __dirname k)) (resolve p)).
Proof.
  intros Hrun Hstay.
  destruct (falsy (VStr k) || falsy files || negb (isArray files)) eqn:Hvalid.
  { rewrite load_project_invalid in Hrun by done. injection Hrun as <- <- <-.
    split; [congruence|]. intros p data Hin. by apply elem_of_nil in Hin. }
  destruct (load_project_disk _ _ _ _ _ _ _ Hvalid Hrun)
    as (st1 & tr1 & tr2 & Hd1 & Hws & Hd2 & He1 & He2 & Htr).
  assert (∀ key,
            (∃ x, x ∈ entries files ∧ entry_at (workspace __dirname k) x key) →
            is_dir (disk st1) key = false →
            is_dir (disk st1) (resolve (workspace __dirname k)) = true →
            strictly_inside (resolve (workspace __dirname k)) key) as Hin.
  { intros key (x & Hx & p & Hp & ->) Hfile Hdir.
    rewrite forallb_forall in Hstay. apply list_elem_of_In, Hstay in Hx.
    unfold entry_stays in Hx. rewrite Hp in Hx. apply negb_true_iff in Hx.
    rewrite entry_key_inside in * by done.
    split; [by apply prefix_app_r|]. intros Heq. rewrite Heq in Hfile. congruence. }
  split.
  - intros key d Hnew Hold.
    assert (disk st1 !! key ≠ Some (File d)) as Hmid.
    { destruct (Hd1 key) as [E1|[[N1 D1]|(I1 & _)]]; [congruence|congruence|done]. }
    destruct Hws as [Hws|[-> _]]; [|done].
    destruct (Hd2 key) as [E2|[[N2 D2]|(I2 & F2 & _)]]; [congruence|congruence|].
    by apply Hin.
  - intros p data Hev. apply Htr, elem_of_app in Hev as [Hev|Hev].
    + rewrite Forall_forall in He1. by destruct (He1 _ Hev).
    + rewrite Forall_forall in He2. destruct (He2 _ Hev) as [I2 F2].
      destruct Hws as [Hws|[_ ->]]; [by apply Hin|]. by apply elem_of_nil in Hev.
Qed.

End Confinement.

(** ** The manifest on disk after a load *)




Section RoundTrip.

Variable buffer_from : value → option string.
Variable __dirname : string.
Hypothesis dirname_absolute : starts_with_slash __dirname = true.

(** A successful load went through every stage. *)
Lemma load_project_success e projectId files st r st' tr :
  load_project buffer_from __dirname e projectId files st = (r, st', tr) →
  status r = 200%Z →
  ∃ k st1 tr1 st2 tr2,
    projectId = VStr k ∧ files = VArr (entries files)
    ∧ mkdir (workspace __dirname k) st = (inr tt, st1, tr1)
    ∧ for_of (entries files) (write_entry buffer_from (workspace __dirname k)) st1
      = (inr tt, st2, tr2)
    ∧ engine_starts e = true
    ∧ r = load_succeeded k
    ∧ st' = {| projects :=
                 map_set k
                   {| vite := servers st2; path := workspace __dirname k;
                      files := entries files; createdAt := now e |}
                   (projects st2);
               disk := disk st2;
               servers := S (servers st2) |}
    ∧ tr = tr1 ++ tr2 ++ [EvCreateServer (servers st2) (workspace __dirname k)].
Proof.
  intros Hrun Hok.
  destruct (falsy projectId || falsy files || negb (isArray files)) eqn:Hvalid.
  { rewrite (load_project_invalid _ _ _ _ _ _ Hvalid) in Hrun.
    injection Hrun as <- <- <-. discriminate Hok. }
  assert (∃ k, projectId = VStr k) as [k ->].
  { destruct projectId; try by eauto.
    all: edestruct load_project_not_string as [error Hfail]; [exact Hvalid|done|];
      rewrite Hfail in Hrun; injection Hrun as <- <- <-; discriminate Hok. }
  destruct (valid_load_request _ _ Hvalid) as [Hk Hfiles].
  rewrite Hfiles, load_project_run in Hrun by done.
  destruct (mkdir (workspace __dirname k) st) as [[[error|[]] st1] tr1] eqn:Hmk;
    [injection Hrun as <- <- <-; discriminate Hok|].
  destruct (for_of (entries files) _ st1) as [[[error|[]] st2] tr2] eqn:Hloop;
    [injection Hrun as <- <- <-; discriminate Hok|].
  destruct (engine_starts e); [|injection Hrun as <- <- <-; discriminate Hok].
  injection Hrun as <- <- <-. by exists k, st1, tr1, st2, tr2.
Qed.



End RoundTrip.

(** ** [/update-file], step by step *)

Section UpdateFile.

Variable buffer_from : value → option string.

Lemma update_file_run e projectId target content st :
  update_file buffer_from e projectId target content st
  = if invalid_update projectId target content then (invalid_request, st, [])
    else
      match projects_get projectId (projects st) with
      | None => (project_not_found, st, [])
      | Some proj =>
          match join_values [VStr (path proj); target] with
          | inl error =>
              (update_failed error, st, [EvConsoleError "Error updating file:"])
          | inr filePath =>
              match writeFile buffer_from filePath content st with
              | (inl error, st1, tr1) =>
                  (update_failed error, st1,
                   tr1 ++ [EvConsoleError "Error updating file:"])
              | (inr _, st1, tr1) =>
                  (update_succeeded, st1, tr1 ++ hmr_calls e (vite proj) filePath)
              end
          end
      end.
Proof.
  unfold update_file, try_catch, invalid_update.
  destruct (falsy projectId || falsy target || _); [done|].
  rewrite bind_get_state.
  destruct (projects_get projectId (projects st)) as [[server root fs t]|]; [|done].
  simpl path. simpl vite.
  destruct (join_values [VStr root; target]) as [error|filePath]; [done|].
  simpl lift. rewrite bind_ret. unfold bind at 1.
  destruct (writeFile buffer_from filePath content st) as [[[error|[]] st1] tr1];
    [done|].
  unfold hmr_calls.
  destruct (getModuleById e server filePath); unfold bind, emit, ret; simpl;
    by rewrite ?app_nil_r.
Qed.

(** A write that succeeds makes one call, and a write that fails none. *)
Lemma writeFile_trace p data st r st' tr :
  writeFile buffer_from p data st = (r, st', tr) →
  tr = match r with inr _ => [EvWriteFile p data] | inl _ => [] end.
Proof.
  destruct data; try (by intros [= <- <- <-]).
  - rewrite writeFile_string. destruct (open_w (disk st) p); by intros [= <- <- <-].
  - rewrite writeFile_array. destruct (open_w (disk st) p); simpl;
      [by intros [= <- <- <-]|].
    destruct (write_chunks buffer_from items EmptyString).2; by intros [= <- <- <-].
Qed.


End UpdateFile.

(** ** The [Map] of projects *)

Lemma map_get_set_eq k v m : map_get k (map_set k v m) = Some v.
Proof.
  induction m as [|[k' v'] m IH]; simpl; [by rewrite String.eqb_refl|].
  destruct (k' =? k) eqn:Hk; simpl; [by rewrite String.eqb_refl|].
  by rewrite Hk.
Qed.


Lemma map_get_elem_of k v m : map_get k m = Some v → (k, v) ∈ m.
Proof.
  induction m as [|[k' v'] m IH]; simpl; [done|].
  destruct (String.eqb_spec k' k) as [->|Hk].
  - intros [= ->]. by constructor.
  - intros H. constructor. by apply IH.
Qed.

Lemma map_get_None k m : map_get k m = None ↔ k ∉ m.*1.
Proof.
  induction m as [|[k' v'] m IH]; simpl.
  - split; [intros _; apply not_elem_of_nil|done].
  - rewrite not_elem_of_cons. destruct (String.eqb_spec k' k) as [->|Hk].
    + split; [done|]. by intros [? _].
    + rewrite IH. split; [by split|by intros [_ ?]].
Qed.


Lemma map_set_elem_of k v m kv :
  kv ∈ map_set k v m → kv = (k, v) ∨ kv ∈ m.
Proof.
  induction m as [|[k' v'] m IH]; simpl.
  - rewrite list_elem_of_singleton. by left.
  - destruct (k' =? k); rewrite !elem_of_cons; [tauto|].
    intros [->|Hin]; [by right; left|]. destruct (IH Hin); by auto.
Qed.

Lemma map_set_keys k v m :
  (map_set k v m).*1 = if bool_decide (k ∈ m.*1) then m.*1 else m.*1 ++ [k].
Proof.
  induction m as [|[k' v'] m IH]; [done|].
  cbn [map_set]. destruct (String.eqb_spec k' k) as [->|Hk]; rewrite !fmap_cons.
  - rewrite bool_decide_eq_true_2; [done|by constructor].
  - rewrite IH. cbn [fst]. destruct (bool_decide (k ∈ m.*1)) eqn:Hin.
    + apply bool_decide_eq_true in Hin.
      rewrite bool_decide_eq_true_2; [done|by constructor].
    + apply bool_decide_eq_false in Hin.
      rewrite bool_decide_eq_false_2; [done|].
      rewrite not_elem_of_cons. by split.
Qed.

Lemma map_set_NoDup k v m : NoDup m.*1 → NoDup (map_set k v m).*1.
Proof.
  intros Hnodup. rewrite map_set_keys. case_bool_decide as Hin; [done|].
  apply NoDup_app. split; [done|]. split; [|apply NoDup_singleton].
  intros x Hx Hk. apply list_elem_of_singleton in Hk as ->. done.
Qed.

(** Replacing or adding an entry whose image under [f] is new keeps the
    images distinct. *)
Lemma map_set_NoDup_image {A} (f : project → A) k v m :
  NoDup (f <$> m.*2) → f v ∉ f <$> m.*2 → NoDup (f <$> (map_set k v m).*2).
Proof.
  induction m as [|[k' v'] m IH].
  - intros _ _. apply NoDup_singleton.
  - cbn [map_set]. rewrite !fmap_cons. cbn [snd]. rewrite NoDup_cons, not_elem_of_cons.
    intros [Hfresh Hnodup] [Hne Hnew].
    destruct (k' =? k); rewrite !fmap_cons; cbn [snd]; apply NoDup_cons.
    + by split.
    + split; [|by apply IH]. intros Hin.
      apply list_elem_of_fmap in Hin as (w & Hw & Hin).
      apply list_elem_of_fmap in Hin as (kw & -> & Hin).
      apply map_set_elem_of in Hin as [->|Hin]; [by simpl in Hw|].
      apply Hfresh. rewrite Hw.
      by apply list_elem_of_fmap_2, (list_elem_of_fmap_2 snd).
Qed.

Lemma map_delete_sublist k m : map_delete k m `sublist_of` m.
Proof.
  induction m as [|[k' v'] m IH]; simpl; [done|].
  destruct (k' =? k); [by apply sublist_cons|by apply sublist_skip].
Qed.

Lemma map_delete_app k a b :
  k ∉ a.*1 → map_delete k (a ++ b) = a ++ map_delete k b.
Proof.
  induction a as [|[k' v'] a IH]; simpl; [done|].
  rewrite not_elem_of_cons. intros [Hne Hnot].
  destruct (String.eqb_spec k' k) as [->|_]; [done|]. by rewrite IH.
Qed.

(** ** Properties of [/update-file] *)

Section UpdateFileProperties.

Variable buffer_from : value → option string.

(** C4, amended: an update for a project id that is not registered makes no
    call and changes nothing; it answers 404 when the request passes the
    validation of line 121 and 400 when it does not. *)
Theorem update_file_unregistered e projectId target content st r st' tr :
  projects_get projectId (projects st) = None →
  update_file buffer_from e projectId target content st = (r, st', tr) →
  st' = st ∧ tr = []
  ∧ r = (if invalid_update projectId target content
         then invalid_request else project_not_found).
Proof.
  intros Hget. rewrite update_file_run, Hget.
  by destruct (invalid_update projectId target content); intros [= <- <- <-].
Qed.

(** C5: a successful update has written the file before it invalidates the
    module and notifies the clients: the write has returned, leaving the
    final state, and its call stands first in the trace. *)
Theorem update_file_write_first e projectId target content st r st' tr :
  update_file buffer_from e projectId target content st = (r, st', tr) →
  status r = 200%Z →
  ∃ proj filePath,
    projects_get projectId (projects st) = Some proj
    ∧ join_values [VStr (path proj); target] = inr filePath
    ∧ writeFile buffer_from filePath content st
      = (inr tt, st', [EvWriteFile filePath content])
    ∧ tr = EvWriteFile filePath content :: hmr_calls e (vite proj) filePath.
Proof.
  rewrite update_file_run.
  destruct (invalid_update projectId target content);
    [by intros [= <- <- <-]|].
  destruct (projects_get projectId (projects st)) as [proj|];
    [|by intros [= <- <- <-]].
  destruct (join_values [VStr (path proj); target]) as [error|filePath] eqn:Hjoin;
    [by intros [= <- <- <-]|].
  destruct (writeFile buffer_from filePath content st) as [[[error|[]] st1] tr1] eqn:Hw;
    [by intros [= <- <- <-]|].
  intros [= <- <- <-] _. exists proj, filePath.
  pose proof (writeFile_trace _ _ _ _ _ _ _ Hw) as ->. by rewrite Hw.
Qed.

(** C6, amended: when the module graph has no node for the file, a valid
    update on a registered project invalidates nothing and notifies nobody,
    and its answer is that of the write alone: success if the write
    succeeds, the 500 of the handler if it fails. *)
Theorem update_file_no_module e projectId target content st proj filePath r st' tr :
  invalid_update projectId target content = false →
  projects_get projectId (projects st) = Some proj →
  join_values [VStr (path proj); target] = inr filePath →
  getModuleById e (vite proj) filePath = false →
  update_file buffer_from e projectId target content st = (r, st', tr) →
  Forall (fun ev => hmr_call ev = false) tr
  ∧ match writeFile buffer_from filePath content st with
    | (inr _, st1, _) =>
        r = update_succeeded ∧ st' = st1 ∧ tr = [EvWriteFile filePath content]
    | (inl error, st1, _) =>
        r = update_failed error ∧ st' = st1
        ∧ tr = [EvConsoleError "Error updating file:"]
    end.
Proof.
  intros Hvalid Hget Hjoin Hmod.
  rewrite update_file_run, Hvalid, Hget, Hjoin. unfold hmr_calls. rewrite Hmod.
  destruct (writeFile buffer_from filePath content st) as [[res st1] tr1] eqn:Hw.
  pose proof (writeFile_trace _ _ _ _ _ _ _ Hw) as ->.
  destruct res as [error|[]]; intros [= <- <- <-]; simpl;
    by repeat constructor.
Qed.

(** [/update-file] never touches the map of projects. *)
Lemma update_file_registry e projectId target content st :
  projects (update_file buffer_from e projectId target content st).1.2 = projects st
  ∧ servers (update_file buffer_from e projectId target content st).1.2 = servers st.
Proof.
  rewrite update_file_run.
  destruct (invalid_update projectId target content); [done|].
  destruct (projects_get projectId (projects st)) as [proj|]; [|done].
  destruct (join_values [VStr (path proj); target]) as [error|filePath]; [done|].
  destruct (writeFile buffer_from filePath content st) as [[res st1] tr1] eqn:Hw.
  destruct (disk_only_writeFile _ _ _ _ _ _ _ Hw) as (Hp & Hs & _).
  by destruct res as [error|[]].
Qed.

(** C10: line 121 answers 400 exactly when [projectId] or [path] is falsy or
    [content] is [undefined]; an empty path is invalid; [null] and the empty
    string pass as content; and [null] content on a registered project ends
    in the 500 of a failed write, with nothing written. *)
Theorem update_file_validation :
  (∀ e projectId target content st,
      status (update_file buffer_from e projectId target content st).1.1 = 400%Z
      ↔ falsy projectId = true ∨ falsy target = true ∨ content = VUndefined)
  ∧ (∀ e projectId content st,
        (update_file buffer_from e projectId (VStr EmptyString) content st).1.1
        = invalid_request)
  ∧ (∀ e projectId target content st,
        falsy projectId = false → falsy target = false →
        content = VNull ∨ content = VStr EmptyString →
        status (update_file buffer_from e projectId target content st).1.1 ≠ 400%Z)
  ∧ (∀ e projectId target st proj,
        falsy projectId = false → falsy target = false →
        projects_get projectId (projects st) = Some proj →
        ∃ error,
          update_file buffer_from e projectId target VNull st
          = (update_failed error, st, [EvConsoleError "Error updating file:"])).
Proof.
  assert (∀ e projectId target content st,
      status (update_file buffer_from e projectId target content st).1.1 = 400%Z
      ↔ falsy projectId = true ∨ falsy target = true ∨ content = VUndefined) as Hiff.
  { intros e projectId target content st. rewrite update_file_run.
    unfold invalid_update.
    destruct (falsy projectId); [simpl; split; by auto|].
    destruct (falsy target); [simpl; split; by auto|].
    assert (∀ (x : response * state * list event) c,
              status x.1.1 ≠ 400%Z → c ≠ VUndefined →
              status x.1.1 = 400%Z ↔ false = true ∨ false = true ∨ c = VUndefined)
      as Hno.
    { intros x c Hx Hc. split; [done|]. by intros [?|[?|?]]. }
    destruct (match content with VUndefined => true | _ => false end) eqn:Hc.
    { simpl. split; [|done]. intros _. right; right. by destruct content. }
    assert (content ≠ VUndefined) as Hdef by (by intros ->).
    cbn [orb].
    destruct (projects_get projectId (projects st)) as [proj|]; [|by apply Hno].
    destruct (join_values [VStr (path proj); target]) as [error|filePath];
      [by apply Hno|].
    destruct (writeFile buffer_from filePath content st) as [[[error|[]] st1] tr1];
      by apply Hno. }
  split; [exact Hiff|]. split; [|split].
  - intros e projectId content st. rewrite update_file_run. unfold invalid_update.
    simpl. by rewrite orb_true_r.
  - intros e projectId target content st Hp Ht Hc. rewrite Hiff, Hp, Ht.
    intros [?|[?|Hu]]; try done. rewrite Hu in Hc. by destruct Hc.
  - intros e projectId target st proj Hp Ht Hget.
    rewrite update_file_run. unfold invalid_update. rewrite Hp, Ht, Hget. simpl.
    destruct (join_values [VStr (path proj); target]) as [error|filePath];
      by eexists.
Qed.

End UpdateFileProperties.

(** ** The properties on concrete requests *)

Lemma run_eta {A B C} (x : A * B * C) : x = (x.1.1, x.1.2, x.2).
Proof. by destruct x as [[a b] c]. Qed.

(** The scenario of the specification: the load answers with the preview
    URL, registers the session and leaves the page on disk. *)
Example demo_load_response :
  demo_load.1.1 = load_succeeded "demo"
  ∧ projects demo_loaded
    = [("demo", {| vite := 0; path := "/srv/app/projects/demo";
                   files := [file_entry "/index.html" "<h1>hi</h1>"];
                   createdAt := 1000 |})]
  ∧ disk demo_loaded !! ["srv"; "app"; "projects"; "demo"; "index.html"]
    = Some (File "<h1>hi</h1>").
Proof. by vm_compute. Qed.

(** C1 as stated fails: the load of project [demo] succeeds and writes
    [/srv/app/server.js], which is not inside [/srv/app/projects/demo]. *)
Lemma load_project_escapes :
  escape_load.1.1 = load_succeeded "demo"
  ∧ resolve (workspace app_dir "demo") = ["srv"; "app"; "projects"; "demo"]
  ∧ disk initial !! ["srv"; "app"; "server.js"] = None
  ∧ disk escape_load.1.2 !! ["srv"; "app"; "server.js"] = Some (File "pwned")
  ∧ EvWriteFile "/srv/app/server.js" (VStr "pwned") ∈ escape_load.2
  ∧ ¬ strictly_inside (resolve (workspace app_dir "demo")) ["srv"; "app"; "server.js"].
Proof.
  repeat split; try by vm_compute.
  - vm_compute. by repeat constructor.
  - intros [[rest Hrest] _]. vm_compute in Hrest. discriminate Hrest.
Qed.

(** C1, amended, on the load of the README's project. *)
Lemma load_project_confined_witness :
  (∀ key d,
      disk demo_loaded !! key = Some (File d) →
      disk initial !! key ≠ Some (File d) →
      strictly_inside (resolve (workspace app_dir "demo")) key)
  ∧ (∀ p data,
        EvWriteFile p data ∈ demo_load.2 →
        strictly_inside (resolve (workspace app_dir "demo")) (resolve p)).
Proof.
  apply (load_project_confined string_chunks app_dir eq_refl (quiet 1000) "demo"
           (VArr [file_entry "/index.html" "<h1>hi</h1>"]) initial demo_load.1.1).
  - apply run_eta.
  - reflexivity.
Defined.



(** C4 as stated fails: the project id is not registered and the answer is
    400, not 404. *)
Lemma update_file_unregistered_invalid :
  projects_get (VStr "ghost") (projects demo_loaded) = None
  ∧ ghost_update.1.1 = invalid_request
  ∧ status ghost_update.1.1 ≠ 404%Z.
Proof. repeat split; by vm_compute. Qed.

(** C4, amended, on a valid update for an id nobody loaded. *)
Lemma update_file_unregistered_witness :
  (update_file string_chunks (quiet 2000) (VStr "ghost") (VStr "a.js") (VStr "x")
     demo_loaded).1.2 = demo_loaded
  ∧ (update_file string_chunks (quiet 2000) (VStr "ghost") (VStr "a.js") (VStr "x")
       demo_loaded).2 = []
  ∧ (update_file string_chunks (quiet 2000) (VStr "ghost") (VStr "a.js") (VStr "x")
       demo_loaded).1.1
    = (if invalid_update (VStr "ghost") (VStr "a.js") (VStr "x")
       then invalid_request else project_not_found).
Proof.
  apply (update_file_unregistered string_chunks (quiet 2000)
           (VStr "ghost") (VStr "a.js") (VStr "x") demo_loaded).
  - reflexivity.
  - apply run_eta.
Defined.

(** C5 on an update of a compiled file: the write, then the invalidation
    and the notification. *)
Lemma update_file_write_first_witness :
  ∃ proj filePath,
    projects_get (VStr "demo") (projects demo_loaded) = Some proj
    ∧ join_values [VStr (path proj); VStr "index.html"] = inr filePath
    ∧ writeFile string_chunks filePath (VStr "<h1>new</h1>") demo_loaded
      = (inr tt,
         (update_file string_chunks (compiled 2000) (VStr "demo") (VStr "index.html")
            (VStr "<h1>new</h1>") demo_loaded).1.2,
         [EvWriteFile filePath (VStr "<h1>new</h1>")])
    ∧ (update_file string_chunks (compiled 2000) (VStr "demo") (VStr "index.html")
         (VStr "<h1>new</h1>") demo_loaded).2
      = EvWriteFile filePath (VStr "<h1>new</h1>")
        :: hmr_calls (compiled 2000) (vite proj) filePath.
Proof.
  apply (update_file_write_first string_chunks (compiled 2000) (VStr "demo")
           (VStr "index.html") (VStr "<h1>new</h1>") demo_loaded
           (update_file string_chunks (compiled 2000) (VStr "demo") (VStr "index.html")
              (VStr "<h1>new</h1>") demo_loaded).1.1).
  - apply run_eta.
  - by vm_compute.
Defined.

(** C6 as stated fails: the project is registered, the resolved path has no
    module node, and the request answers 500 instead of succeeding. *)
Lemma update_file_null_content_fails :
  invalid_update (VStr "demo") (VStr "index.html") VNull = false
  ∧ projects_get (VStr "demo") (projects demo_loaded)
    = Some {| vite := 0; path := "/srv/app/projects/demo";
              files := [file_entry "/index.html" "<h1>hi</h1>"];
              createdAt := 1000 |}
  ∧ join_values [VStr "/srv/app/projects/demo"; VStr "index.html"]
    = inr "/srv/app/projects/demo/index.html"
  ∧ getModuleById (quiet 2000) 0 "/srv/app/projects/demo/index.html" = false
  ∧ status null_update.1.1 = 500%Z
  ∧ null_update.1.1 ≠ update_succeeded.
Proof. repeat split; by vm_compute. Qed.

(** C6, amended, on an update of a file the engine never compiled. *)
Lemma update_file_no_module_witness :
  Forall (fun ev => hmr_call ev = false)
    (update_file string_chunks (quiet 2000) (VStr "demo") (VStr "index.html")
       (VStr "<h1>new</h1>") demo_loaded).2
  ∧ match writeFile string_chunks "/srv/app/projects/demo/index.html"
            (VStr "<h1>new</h1>") demo_loaded with
    | (inr _, st1, _) =>
        (update_file string_chunks (quiet 2000) (VStr "demo") (VStr "index.html")
           (VStr "<h1>new</h1>") demo_loaded).1.1 = update_succeeded
        ∧ (update_file string_chunks (quiet 2000) (VStr "demo") (VStr "index.html")
             (VStr "<h1>new</h1>") demo_loaded).1.2 = st1
        ∧ (update_file string_chunks (quiet 2000) (VStr "demo") (VStr "index.html")
             (VStr "<h1>new</h1>") demo_loaded).2
          = [EvWriteFile "/srv/app/projects/demo/index.html" (VStr "<h1>new</h1>")]
    | (inl error, st1, _) =>
        (update_file string_chunks (quiet 2000) (VStr "demo") (VStr "index.html")
           (VStr "<h1>new</h1>") demo_loaded).1.1 = update_failed error
        ∧ (update_file string_chunks (quiet 2000) (VStr "demo") (VStr "index.html")
             (VStr "<h1>new</h1>") demo_loaded).1.2 = st1
        ∧ (update_file string_chunks (quiet 2000) (VStr "demo") (VStr "index.html")
             (VStr "<h1>new</h1>") demo_loaded).2
          = [EvConsoleError "Error updating file:"]
    end.
Proof.
  apply (update_file_no_module string_chunks (quiet 2000) (VStr "demo")
           (VStr "index.html") (VStr "<h1>new</h1>") demo_loaded
           {| vite := 0; path := "/srv/app/projects/demo";
              files := [file_entry "/index.html" "<h1>hi</h1>"];
              createdAt := 1000 |}
           "/srv/app/projects/demo/index.html").
  - reflexivity.
  - reflexivity.
  - reflexivity.
  - reflexivity.
  - apply run_eta.
Defined.

Example update_file_no_module_succeeds :
  (update_file string_chunks (quiet 2000) (VStr "demo") (VStr "index.html")
     (VStr "<h1>new</h1>") demo_loaded).1.1 = update_succeeded
  ∧ (update_file string_chunks (quiet 2000) (VStr "demo") (VStr "index.html")
       (VStr "<h1>new</h1>") demo_loaded).2
    = [EvWriteFile "/srv/app/projects/demo/index.html" (VStr "<h1>new</h1>")].
Proof. split; by vm_compute. Qed.

(** ** Closing engines, and the cleanup loop *)

Lemma closes_app h tr1 tr2 : closes h (tr1 ++ tr2) = closes h tr1 + closes h tr2.
Proof. unfold closes. by rewrite List.filter_app, length_app. Qed.

Lemma closes_none h tr :
  (∀ ev, ev ∈ tr → is_close h ev = false) → closes h tr = 0.
Proof.
  intros Hno. unfold closes. induction tr as [|ev tr IH]; [done|]. simpl.
  rewrite (Hno ev) by constructor. apply IH. intros ev' Hin. apply Hno.
  by constructor.
Qed.

Lemma closes_fs_calls h tr : Forall fs_call tr → closes h tr = 0.
Proof.
  intros Hfs. apply closes_none. intros ev Hin.
  rewrite Forall_forall in Hfs. specialize (Hfs _ Hin). by destruct ev.
Qed.

Lemma sweep_trace t entries m :
  (sweep t entries m).2 = flat_map eviction_calls (List.filter (evicted t) entries).
Proof.
  revert m. induction entries as [|[k p] rest IH]; intros m; [done|].
  simpl. unfold evicted at 1. simpl.
  destruct (expired t p); [|by apply IH].
  specialize (IH (map_delete k m)).
  destruct (sweep t rest (map_delete k m)) as [m' evs]. simpl in *. by rewrite IH.
Qed.

Lemma sweep_sublist t entries m : (sweep t entries m).1 `sublist_of` m.
Proof.
  revert m. induction entries as [|[k p] rest IH]; intros m; [done|].
  simpl. destruct (expired t p); [|by apply IH].
  specialize (IH (map_delete k m)).
  destruct (sweep t rest (map_delete k m)) as [m' evs]. simpl in *.
  transitivity (map_delete k m); [exact IH|apply map_delete_sublist].
Qed.

(** With distinct keys, the loop removes exactly the expired entries. *)
Lemma sweep_filter t pre entries :
  NoDup (pre ++ entries).*1 →
  (sweep t entries (List.filter (kept t) pre ++ entries)).1
  = List.filter (kept t) (pre ++ entries).
Proof.
  revert pre. induction entries as [|[k p] rest IH]; intros pre Hnodup.
  { by rewrite !app_nil_r. }
  assert (NoDup ((pre ++ [(k, p)]) ++ rest).*1) as Hnodup'
    by (by rewrite <- app_assoc).
  specialize (IH (pre ++ [(k, p)]) Hnodup').
  rewrite List.filter_app in IH. simpl in IH. unfold kept at 2 in IH. simpl in IH.
  replace (pre ++ (k, p) :: rest) with ((pre ++ [(k, p)]) ++ rest)
    by (by rewrite <- app_assoc).
  simpl. destruct (expired t p); simpl in IH.
  - rewrite app_nil_r in IH.
    rewrite map_delete_app; [|].
    + simpl. rewrite String.eqb_refl.
      destruct (sweep t rest (List.filter (kept t) pre ++ rest)) as [m' evs].
      by simpl in *.
    + rewrite fmap_app, fmap_cons in Hnodup. apply NoDup_app in Hnodup as (_ & Hsep & _).
      intros Hin. apply list_elem_of_fmap in Hin as ([k' p'] & -> & Hin).
      apply list_elem_of_In, List.filter_In in Hin as [Hin _].
      apply (Hsep k'); [|by constructor].
      by apply (list_elem_of_fmap_2 fst _ (k', p')), list_elem_of_In.
  - by rewrite <- app_assoc in IH.
Qed.

Lemma cleanup_run t st :
  cleanup t st
  = ({| projects := (sweep t (projects st) (projects st)).1;
        disk := disk st; servers := servers st |},
     flat_map eviction_calls (List.filter (evicted t) (projects st))).
Proof.
  unfold cleanup. rewrite <- (sweep_trace t (projects st) (projects st)).
  by destruct (sweep t (projects st) (projects st)).
Qed.

(** ** The life of the process *)

Section Lifecycle.

Variable buffer_from : value → option string.
Variable __dirname : string.

(** What a load does to the map of projects: nothing, or one [projects.set]
    with a server that did not exist before.  It closes no server. *)
Lemma load_project_registry e projectId files st r st' tr :
  load_project buffer_from __dirname e projectId files st = (r, st', tr) →
  (∀ h, closes h tr = 0)
  ∧ ((projects st' = projects st ∧ servers st' = servers st)
     ∨ (∃ k, projectId = VStr k ∧ r = load_succeeded k
             ∧ projects st'
               = map_set k
                   {| vite := servers st; path := workspace __dirname k;
                      files := entries files; createdAt := now e |}
                   (projects st)
             ∧ servers st' = S (servers st))).
Proof.
  intros Hrun.
  destruct (falsy projectId || falsy files || negb (isArray files)) eqn:Hvalid.
  { rewrite (load_project_invalid _ _ _ _ _ _ Hvalid) in Hrun.
    injection Hrun as <- <- <-. split; [done|by left]. }
  assert ((∃ k, projectId = VStr k)
          ∨ ∃ error, load_project buffer_from __dirname e projectId files st
                     = (load_failed error, st, [EvConsoleError "Error loading project:"]))
    as [[k ->]|[error Hfail]].
  { destruct projectId; try (by left; eauto).
    all: right; by apply load_project_not_string. }
  2: { rewrite Hfail in Hrun. injection Hrun as <- <- <-. split; [done|by left]. }
  destruct (valid_load_request _ _ Hvalid) as [Hk Hfiles].
  rewrite Hfiles, load_project_run in Hrun by done.
  destruct (mkdir (workspace __dirname k) st) as [[res1 st1] tr1] eqn:Hmk.
  destruct (disk_only_mkdir _ _ _ _ _ Hmk) as (P1 & S1 & T1).
  destruct res1 as [error|[]].
  { injection Hrun as <- <- <-. split; [|by left].
    intros h. rewrite closes_app, closes_fs_calls by done. done. }
  destruct (for_of (entries files) _ st1) as [[res2 st2] tr2] eqn:Hloop.
  destruct (disk_only_materialize _ _ _ _ _ _ _ Hloop) as (P2 & S2 & T2).
  destruct res2 as [error|[]].
  { injection Hrun as <- <- <-. split; [|left; split; congruence].
    intros h. rewrite !closes_app, !closes_fs_calls by done. done. }
  destruct (engine_starts e); injection Hrun as <- <- <-.
  - split; [intros h; rewrite !closes_app, !closes_fs_calls by done; done|].
    right. exists k. simpl. rewrite P2, P1, S2, S1. by rewrite Hfiles.
  - split; [|left; split; congruence].
    intros h. rewrite !closes_app, !closes_fs_calls by done. done.
Qed.

Lemma update_file_closes e projectId target content st h :
  closes h (update_file buffer_from e projectId target content st).2 = 0.
Proof.
  rewrite update_file_run.
  destruct (invalid_update projectId target content); [done|].
  destruct (projects_get projectId (projects st)) as [proj|]; [|done].
  destruct (join_values [VStr (path proj); target]) as [error|filePath]; [done|].
  destruct (writeFile buffer_from filePath content st) as [[res st1] tr1] eqn:Hw.
  pose proof (writeFile_trace _ _ _ _ _ _ _ Hw) as ->.
  destruct res as [error|[]]; [done|].
  simpl. unfold hmr_calls. by destruct (getModuleById e (vite proj) filePath).
Qed.

Lemma sublist_registry_ok st st' :
  registry_ok __dirname st → projects st' `sublist_of` projects st →
  servers st' = servers st → registry_ok __dirname st'.
Proof.
  intros (Hk & Hv & Hall) Hsub Hs. repeat split.
  - apply (sublist_NoDup _ _ Hk). by apply fmap_sublist.
  - apply (sublist_NoDup _ _ Hv). by do 2 apply fmap_sublist.
  - rewrite Hs. rewrite Forall_forall in *. intros kv Hin. apply Hall.
    by eapply elem_of_sublist.
Qed.

Lemma step_registry_ok st tr st' :
  registry_ok __dirname st → step buffer_from __dirname st tr st' →
  registry_ok __dirname st'.
Proof.
  intros Hok Hstep.
  destruct Hstep as [e projectId items st|e projectId target content st|t st|p fulfilled st].
  - destruct (load_project_registry e projectId items st _ _ _ (run_eta _))
      as [_ [[Hp Hs]|(k & _ & _ & Hp & Hs)]].
    + apply (sublist_registry_ok st); [done|by rewrite Hp|done].
    + destruct Hok as (Hk & Hv & Hall). rewrite Forall_forall in Hall.
      unfold registry_ok. rewrite Hp, Hs. repeat split.
      * by apply map_set_NoDup.
      * apply (map_set_NoDup_image vite); [done|]. simpl. intros Hin.
        apply list_elem_of_fmap in Hin as (p & Hvp & Hin).
        apply list_elem_of_fmap in Hin as (kv & -> & Hin).
        destruct (Hall _ Hin) as [Hlt _]. lia.
      * apply Forall_forall. intros kv Hin.
        apply map_set_elem_of in Hin as [->|Hin]; [simpl; split; [lia|done]|].
        destruct (Hall _ Hin). split; [lia|done].
  - destruct (update_file_registry buffer_from e projectId target content st)
      as [Hp Hs].
    apply (sublist_registry_ok st); [done|by rewrite Hp|done].
  - rewrite cleanup_run. apply (sublist_registry_ok st); [done| |done].
    apply sweep_sublist.
  - apply (sublist_registry_ok st); [done| |]; unfold rm_settled;
      by destruct fulfilled.
Qed.

Lemma steps_registry_ok st tr st' :
  steps buffer_from __dirname st tr st' → registry_ok __dirname st →
  registry_ok __dirname st'.
Proof.
  induction 1 as [|st0 tr0 st1 tr1 st2 Hstep _ IH]; [done|].
  intros Hok. apply IH. by eapply step_registry_ok.
Qed.

Lemma reachable_registry_ok st :
  reachable buffer_from __dirname st → registry_ok __dirname st.
Proof.
  intros [tr Hsteps]. apply (steps_registry_ok _ _ _ Hsteps).
  repeat split; simpl; by constructor.
Qed.

Lemma sublist_orphan h st st' :
  orphan h st → projects st' `sublist_of` projects st →
  servers st' = servers st → orphan h st'.
Proof.
  intros [Hlt Hnot] Hsub Hs. split; [by rewrite Hs|]. intros Hin. apply Hnot.
  eapply elem_of_sublist; [exact Hin|]. by do 2 apply fmap_sublist.
Qed.

Lemma eviction_calls_closes h t m :
  h ∉ vite <$> m.*2 →
  closes h (flat_map eviction_calls (List.filter (evicted t) m)) = 0.
Proof.
  intros Hnot. apply closes_none. intros ev Hin.
  apply list_elem_of_In, in_flat_map in Hin as ([k p] & Hkp & Hev).
  apply List.filter_In in Hkp as [Hkp _]. simpl in Hev.
  destruct Hev as [<-|[<-|[]]]; [|done]. simpl.
  apply Nat.eqb_neq. intros ->. apply Hnot.
  apply list_elem_of_In in Hkp.
  by apply (list_elem_of_fmap_2 vite), (list_elem_of_fmap_2 snd _ (k, p)).
Qed.

(** No turn of the event loop closes an orphan, and none adopts it. *)
Lemma step_orphan h st tr st' :
  orphan h st → step buffer_from __dirname st tr st' → orphan h st' ∧ closes h tr = 0.
Proof.
  intros Horphan Hstep.
  destruct Hstep as [e projectId items st|e projectId target content st|t st|p fulfilled st].
  - destruct (load_project_registry e projectId items st _ _ _ (run_eta _))
      as [Hcl [[Hp Hs]|(k & _ & _ & Hp & Hs)]].
    + split; [|done]. apply (sublist_orphan h st); [done|by rewrite Hp|done].
    + split; [|done]. destruct Horphan as [Hlt Hnot]. split; [lia|].
      rewrite Hp. intros Hin.
      apply list_elem_of_fmap in Hin as (p & Hvp & Hin).
      apply list_elem_of_fmap in Hin as (kv & -> & Hin).
      apply map_set_elem_of in Hin as [->|Hin]; [simpl in Hvp; lia|].
      apply Hnot. rewrite Hvp.
      by apply (list_elem_of_fmap_2 vite), (list_elem_of_fmap_2 snd).
  - split; [|apply update_file_closes].
    destruct (update_file_registry buffer_from e projectId target content st)
      as [Hp Hs].
    apply (sublist_orphan h st); [done|by rewrite Hp|done].
  - rewrite cleanup_run. simpl. split.
    + apply (sublist_orphan h st); [done| |done]. apply sweep_sublist.
    + apply eviction_calls_closes. by destruct Horphan.
  - unfold rm_settled. by destruct fulfilled.
Qed.

(** Whatever happens next, an orphan is never closed: not by a request, not
    by the cleanup, and not by the drain at SIGTERM. *)
Lemma orphan_never_closed h st tr st' :
  orphan h st → steps buffer_from __dirname st tr st' →
  closes h tr = 0 ∧ closes h (sigterm st') = 0.
Proof.
  intros Horphan Hsteps. revert Horphan.
  induction Hsteps as [|st0 tr0 st1 tr1 st2 Hstep _ IH]; intros Horphan.
  - split; [done|]. unfold sigterm. rewrite closes_app. simpl.
    rewrite Nat.add_0_r. apply closes_none. intros ev Hin.
    apply list_elem_of_fmap in Hin as (kv & -> & Hin). simpl.
    apply Nat.eqb_neq. intros ->. destruct Horphan as [_ Hnot]. apply Hnot.
    by apply (list_elem_of_fmap_2 vite), (list_elem_of_fmap_2 snd).
  - destruct (step_orphan _ _ _ _ Horphan Hstep) as [Horphan1 Hcl0].
    destruct (IH Horphan1) as [Hcl1 Hterm].
    split; [|done]. rewrite closes_app. lia.
Qed.

Lemma run_updates_registry requests st :
  projects (run_updates buffer_from requests st) = projects st.
Proof.
  revert st. induction requests as [|[e [[projectId target] content]] rest IH];
    intros st; [done|].
  simpl. rewrite IH. apply update_file_registry.
Qed.

(** C7: [createdAt] is the clock read by the load that created the session,
    and no run of updates changes it: the age the cleanup computes is still
    measured from that load. *)
Theorem createdAt_survives_updates e k files st r st' tr requests :
  load_project buffer_from __dirname e (VStr k) files st = (r, st', tr) →
  status r = 200%Z →
  ∃ proj,
    map_get k (projects st') = Some proj
    ∧ map_get k (projects (run_updates buffer_from requests st')) = Some proj
    ∧ createdAt proj = now e
    ∧ ∀ t, expired t proj = (t - now e >? MAX_AGE)%Z.
Proof.
  intros Hrun Hok.
  destruct (load_project_success _ _ _ _ _ _ _ _ _ Hrun Hok)
    as (k' & st1 & tr1 & st2 & tr2 & [= <-] & _ & _ & _ & _ & _ & -> & _).
  eexists. rewrite run_updates_registry. simpl. rewrite map_get_set_eq.
  by repeat split.
Qed.

End Lifecycle.

(** ** Workspaces of different projects *)



Section Workspaces.

Variable buffer_from : value → option string.
Variable __dirname : string.
Hypothesis dirname_absolute : starts_with_slash __dirname = true.




(** Two different names without a slash never begin one another. *)
Lemma plain_names_apart k1 k2 :
  plain k1 = true → plain k2 = true → k1 ≠ k2 →
  plain_id k1 = true ∧ plain_id k2 = true
  ∧ ¬ split_slash k1 `prefix_of` split_slash k2
  ∧ ¬ split_slash k2 `prefix_of` split_slash k1.
Proof.
  intros H1 H2 Hne.
  destruct (plain_spec _ H1) as (_ & _ & _ & Hs1).
  destruct (plain_spec _ H2) as (_ & _ & _ & Hs2).
  unfold plain_id. rewrite !split_slash_no_slash by done. simpl.
  rewrite H1, H2. repeat split; try done.
  - intros Hpre. by apply prefix_cons_inv_1 in Hpre.
  - intros Hpre. by apply prefix_cons_inv_1 in Hpre.
Qed.

End Workspaces.

(** ** The cleanup interval *)

Lemma closes_cons h ev tr :
  closes h (ev :: tr) = (if is_close h ev then 1 else 0) + closes h tr.
Proof. unfold closes. simpl. by destruct (is_close h ev). Qed.

Lemma eviction_closes_once t m k p :
  NoDup (vite <$> m.*2) → (k, p) ∈ m →
  closes (vite p) (flat_map eviction_calls (List.filter (evicted t) m))
  = if expired t p then 1 else 0.
Proof.
  induction m as [|[k0 p0] m IH]; [by rewrite elem_of_nil|].
  rewrite !fmap_cons, NoDup_cons, elem_of_cons. cbn [snd].
  intros [Hfresh Hnodup] Hin. cbn [List.filter]. unfold evicted at 1. cbn [snd].
  destruct Hin as [[= -> ->]|Hin].
  - destruct (expired t p0).
    + cbn [flat_map eviction_calls app snd]. rewrite !closes_cons. cbn [is_close].
      rewrite Nat.eqb_refl. by rewrite eviction_calls_closes.
    + by rewrite eviction_calls_closes.
  - assert (vite p ≠ vite p0) as Hne.
    { intros Heq. apply Hfresh. rewrite <- Heq.
      by apply (list_elem_of_fmap_2 vite), (list_elem_of_fmap_2 snd _ (k, p)). }
    destruct (expired t p0); [|by apply IH].
    cbn [flat_map eviction_calls app snd]. rewrite !closes_cons. cbn [is_close].
    apply Nat.eqb_neq in Hne. rewrite Hne. by apply IH.
Qed.


Section Cleanup.

Variable buffer_from : value → option string.
Variable __dirname : string.


End Cleanup.

(** ** The lifecycle on concrete requests *)


Lemma siblings_reachable : reachable string_chunks app_dir siblings.
Proof.
  eexists. eapply steps_more; [apply step_load|].
  eapply steps_more; [apply step_load|]. apply steps_done.
Qed.


(** C3 fails on the code: after a second load of [demo], the server created
    by the first load is out of the map without having been closed, and
    nothing that can happen afterwards closes it. *)
Theorem reload_orphans_engine :
  demo_load.1.1 = load_succeeded "demo"
  ∧ (vite <$> map_get "demo" (projects demo_loaded)) = Some 0
  ∧ reload.1.1 = load_succeeded "demo"
  ∧ (vite <$> (projects reload.1.2).*2) = [1]
  ∧ closes 0 (demo_load.2 ++ reload.2) = 0
  ∧ ∀ tr st',
      steps string_chunks app_dir reload.1.2 tr st' →
      closes 0 tr = 0 ∧ closes 0 (sigterm st') = 0.
Proof.
  assert (orphan 0 reload.1.2) as Horphan.
  { split; [vm_compute; lia|]. vm_compute. intros Hin.
    apply list_elem_of_singleton in Hin. discriminate Hin. }
  do 5 (split; [by vm_compute|]).
  intros tr st' Hsteps.
  by apply (orphan_never_closed string_chunks app_dir 0 reload.1.2).
Qed.

(** C7 on two updates, one of which fails. *)
Lemma createdAt_survives_updates_witness :
  ∃ proj,
    map_get "demo" (projects demo_loaded) = Some proj
    ∧ map_get "demo"
        (projects
           (run_updates string_chunks
              [(compiled 2000, (VStr "demo", VStr "index.html", VStr "<h1>new</h1>"));
               (quiet 3000, (VStr "demo", VStr "src/app.js", VNull))]
              demo_loaded))
      = Some proj
    ∧ createdAt proj = now (quiet 1000)
    ∧ ∀ t, expired t proj = (t - now (quiet 1000) >? MAX_AGE)%Z.
Proof.
  apply (createdAt_survives_updates string_chunks app_dir (quiet 1000) "demo"
           (VArr [file_entry "/index.html" "<h1>hi</h1>"]) initial
           demo_load.1.1 demo_loaded demo_load.2).
  - apply run_eta.
  - by vm_compute.
Defined.


Lemma alias_young_reachable : reachable string_chunks app_dir alias_young.1.2.
Proof.
  eexists. eapply steps_more; [apply step_load|].
  eapply steps_more; [apply step_load|]. apply steps_done.
Qed.


(** * More properties of the handlers *)

(** ** The map of projects and the disk, once more *)

Lemma map_get_set_ne k k' v m :
  k ≠ k' → map_get k' (map_set k v m) = map_get k' m.
Proof.
  intros Hne. induction m as [|[k0 v0] m IH]; simpl.
  - by destruct (String.eqb_spec k k').
  - destruct (String.eqb_spec k0 k) as [->|Hk0]; simpl.
    + by destruct (String.eqb_spec k k').
    + by rewrite IH.
Qed.

Lemma length_map_set k v m :
  length (map_set k v m)
  = match map_get k m with Some _ => length m | None => S (length m) end.
Proof.
  induction m as [|[k0 v0] m IH]; simpl; [done|].
  destruct (k0 =? k); simpl; [done|]. rewrite IH.
  by destruct (map_get k m).
Qed.

Lemma disk_step_persists inside fs fs' : disk_step inside fs fs' → persists fs fs'.
Proof.
  intros Hstep k. destruct (Hstep k) as [E|[[N D]|(_ & F & d & W)]].
  - rewrite E. destruct (fs !! k) as [[|d]|]; by eauto.
  - by rewrite N.
  - unfold is_dir in F. destruct (fs !! k) as [[|d0]|]; [by destruct k|by eauto|done].
Qed.

(** ** The outcomes of [/load-project] *)

Section LoadOutcomes.

Variable buffer_from : value → option string.
Variable __dirname : string.

(** The three ways a load can end: refused by the validation; failed, with
    the map of projects as it was; or succeeded, with one [projects.set]. *)
Lemma load_project_outcome e projectId files st r st' tr :
  load_project buffer_from __dirname e projectId files st = (r, st', tr) →
  (load_invalid projectId files = true
   ∧ r = bad_load_request ∧ st' = st ∧ tr = [])
  ∨ (load_invalid projectId files = false
     ∧ (∃ error, r = load_failed error)
     ∧ projects st' = projects st ∧ servers st' = servers st
     ∧ disk_step (fun _ => True) (disk st) (disk st')
     ∧ ∃ calls, tr = calls ++ [EvConsoleError "Error loading project:"]
                ∧ Forall fs_call calls)
  ∨ (load_invalid projectId files = false
     ∧ ∃ k, projectId = VStr k ∧ r = load_succeeded k
            ∧ projects st'
              = map_set k
                  {| vite := servers st; path := workspace __dirname k;
                     files := entries files; createdAt := now e |}
                  (projects st)
            ∧ servers st' = S (servers st)
            ∧ disk_step (fun _ => True) (disk st) (disk st')
            ∧ is_dir (disk st') (resolve (workspace __dirname k)) = true
            ∧ ∃ calls, tr = calls ++ [EvCreateServer (servers st) (workspace __dirname k)]
                       ∧ Forall fs_call calls).
Proof.
  intros Hrun. unfold load_invalid.
  destruct (falsy projectId || falsy files || negb (isArray files)) eqn:Hvalid.
  { rewrite (load_project_invalid _ _ _ _ _ _ Hvalid) in Hrun.
    injection Hrun as <- <- <-. by left. }
  right.
  assert ((∃ k, projectId = VStr k)
          ∨ ∃ error, load_project buffer_from __dirname e projectId files st
                     = (load_failed error, st, [EvConsoleError "Error loading project:"]))
    as [[k ->]|[error Hfail]].
  { destruct projectId; try (by left; eauto).
    all: right; by apply load_project_not_string. }
  2: { rewrite Hfail in Hrun. injection Hrun as <- <- <-. left.
       repeat split; try done; [by eauto|apply disk_step_refl|by exists []]. }
  destruct (valid_load_request _ _ Hvalid) as [Hk Hfiles].
  rewrite Hfiles, load_project_run in Hrun by done.
  destruct (mkdir (workspace __dirname k) st) as [[res1 st1] tr1] eqn:Hmk.
  destruct (disk_only_mkdir _ _ _ _ _ Hmk) as (P1 & S1 & T1).
  destruct (touches_mkdir (fun _ => True) _ _ _ _ _ Hmk) as [D1 _].
  destruct res1 as [error|[]].
  { injection Hrun as <- <- <-. left. repeat split; try done; by eauto. }
  destruct (for_of (entries files) _ st1) as [[res2 st2] tr2] eqn:Hloop.
  destruct (disk_only_materialize _ _ _ _ _ _ _ Hloop) as (P2 & S2 & T2).
  assert (disk_step (fun _ => True) (disk st1) (disk st2)) as D2.
  { destruct (touches_for_of (entry_at (workspace __dirname k)) (entries files)
                (write_entry buffer_from (workspace __dirname k))
                (fun x _ => touches_write_entry buffer_from _ x) _ _ _ _ Hloop)
      as [D2 _].
    by eapply disk_step_mono; [|exact D2]. }
  assert (disk_step (fun _ => True) (disk st) (disk st2)) as D12
    by (by eapply disk_step_trans).
  assert (Forall fs_call (tr1 ++ tr2)) as T12 by (by apply Forall_app).
  destruct res2 as [error|[]].
  { injection Hrun as <- <- <-. left.
    repeat split; try done; [by eauto|congruence|congruence|by eauto]. }
  destruct (engine_starts e); injection Hrun as <- <- <-.
  - right. split; [done|]. exists k. simpl. rewrite P2, P1, S2, S1.
    repeat split; try done.
    + apply (disk_step_is_dir _ _ _ _ D2). by apply (mkdir_is_dir _ _ _ _ Hmk).
    + exists (tr1 ++ tr2). by rewrite <- app_assoc.
  - left. repeat split; try done; [by eauto|congruence|congruence|].
    exists (tr1 ++ tr2). by rewrite app_nil_r.
Qed.

End LoadOutcomes.

Section LoadProperties.

Variable buffer_from : value → option string.
Variable __dirname : string.

(** X1: [/load-project] answers 400 exactly when [projectId] is falsy,
    [files] is falsy or [files] is not an array, and a request refused this
    way makes no call and changes nothing. *)
Theorem load_project_validation :
  (∀ e projectId files st,
      status (load_project buffer_from __dirname e projectId files st).1.1 = 400%Z
      ↔ load_invalid projectId files = true)
  ∧ (∀ e projectId files st,
        load_invalid projectId files = true →
        load_project buffer_from __dirname e projectId files st
        = (bad_load_request, st, [])).
Proof.
  split.
  - intros e projectId files st.
    destruct (load_project_outcome buffer_from __dirname e projectId files st
                _ _ _ (run_eta _))
      as [(Hinv & -> & _)|[(Hinv & [error ->] & _)|(Hinv & k & _ & -> & _)]];
      rewrite Hinv; by split.
  - intros e projectId files st Hinv.
    destruct (load_project_outcome buffer_from __dirname e projectId files st
                _ _ _ (run_eta _))
      as [(_ & Hr & Hst & Htr)|[(Hno & _)|(Hno & _)]]; [|congruence|congruence].
    rewrite (run_eta (load_project _ _ _ _ _ _)). by rewrite Hr, Hst, Htr.
Qed.

(** X2: a [projectId] that is truthy but not a string (a number, [true], an
    array, an object) gets past the validation and is then refused by
    [path.join]: the answer is 500, no call is made on the disk and nothing
    changes. *)
Theorem load_project_id_not_string e projectId files st :
  load_invalid projectId files = false →
  (∀ k, projectId ≠ VStr k) →
  ∃ error,
    load_project buffer_from __dirname e projectId files st
    = (load_failed error, st, [EvConsoleError "Error loading project:"]).
Proof. intros Hvalid Hk. by apply load_project_not_string. Qed.

(** X3: a load that does not answer 200 registers nothing and leaves no
    engine behind: the map of projects is as it was and no Vite server was
    created, whatever the load had already written to the disk. *)
Theorem failed_load_registers_nothing e projectId files st r st' tr :
  load_project buffer_from __dirname e projectId files st = (r, st', tr) →
  status r ≠ 200%Z →
  projects st' = projects st
  ∧ servers st' = servers st
  ∧ ∀ h root, EvCreateServer h root ∉ tr.
Proof.
  intros Hrun Hfail.
  destruct (load_project_outcome _ _ _ _ _ _ _ _ _ Hrun)
    as [(_ & _ & -> & ->)|[(_ & _ & Hp & Hs & _ & calls & -> & Hcalls)
                          |(_ & k & _ & -> & _)]]; [| |done].
  - repeat split. intros h root Hin. by apply elem_of_nil in Hin.
  - repeat split; try done. intros h root Hin.
    apply elem_of_app in Hin as [Hin|Hin].
    + rewrite Forall_forall in Hcalls. by apply Hcalls in Hin.
    + by apply list_elem_of_singleton in Hin.
Qed.

(** X4: a load that answers 200 has filed, under its id, a session made of
    a server that did not exist before, the workspace of the id, the
    manifest as received and the clock; the answer carries the preview URL
    of the id; and the sessions of all other ids are as they were. *)
Theorem load_project_registers e projectId files st r st' tr :
  load_project buffer_from __dirname e projectId files st = (r, st', tr) →
  status r = 200%Z →
  ∃ k,
    projectId = VStr k
    ∧ body r = VObj [("success", VBool true); ("projectId", VStr k);
                     ("previewUrl", VStr ("/preview/" +:+ k))]
    ∧ map_get k (projects st')
      = Some {| vite := servers st; path := join [__dirname; "projects"; k];
                files := entries files; createdAt := now e |}
    ∧ servers st' = S (servers st)
    ∧ ∀ k', k' ≠ k → map_get k' (projects st') = map_get k' (projects st).
Proof.
  intros Hrun Hok.
  destruct (load_project_outcome _ _ _ _ _ _ _ _ _ Hrun)
    as [(_ & -> & _)|[(_ & [error ->] & _)|(_ & k & -> & -> & Hp & Hs & _)]];
    [discriminate Hok|discriminate Hok|].
  exists k. rewrite Hp. repeat split; try done.
  - apply map_get_set_eq.
  - intros k' Hne. by apply map_get_set_ne.
Qed.

(** X5: [activeProjects] of [/health] after a successful load: one more
    than before when the id was not registered, the same when it was (the
    session is replaced, not added). *)
Theorem health_counts_projects e k files st r st' tr uptime timestamp :
  load_project buffer_from __dirname e (VStr k) files st = (r, st', tr) →
  status r = 200%Z →
  get_prop (body (health uptime timestamp st')) "activeProjects"
  = inr (VNum (Z.of_nat (match map_get k (projects st) with
                         | Some _ => length (projects st)
                         | None => S (length (projects st))
                         end))).
Proof.
  intros Hrun Hok.
  destruct (load_project_outcome _ _ _ _ _ _ _ _ _ Hrun)
    as [(_ & -> & _)|[(_ & [error ->] & _)|(_ & k' & [= <-] & _ & Hp & _)]];
    [discriminate Hok|discriminate Hok|].
  simpl. by rewrite Hp, length_map_set.
Qed.

(** X6: on a successful load the engine is started last, after every call
    on the disk has returned, with the workspace of the id as its root, and
    that workspace is a directory on the disk (even when the manifest is
    empty). *)
Theorem load_project_engine_last e k files st r st' tr :
  load_project buffer_from __dirname e (VStr k) files st = (r, st', tr) →
  status r = 200%Z →
  is_dir (disk st') (resolve (join [__dirname; "projects"; k])) = true
  ∧ ∃ calls,
      tr = calls ++ [EvCreateServer (servers st) (join [__dirname; "projects"; k])]
      ∧ Forall fs_call calls.
Proof.
  intros Hrun Hok.
  destruct (load_project_outcome _ _ _ _ _ _ _ _ _ Hrun)
    as [(_ & -> & _)|[(_ & [error ->] & _)
                     |(_ & k' & [= <-] & _ & _ & _ & _ & Hdir & Hcalls)]];
    [discriminate Hok|discriminate Hok|].
  by split.
Qed.

End LoadProperties.

(** ** What the handlers do to the disk *)


Lemma resolve_join_below base p :
  starts_with_slash base = true → climbs p = false →
  resolve (join [base; p])
  = resolve base ++ normalize_segments true [] (split_slash p).
Proof.
  intros Hbase Hp. apply bool_decide_eq_false in Hp.
  rewrite resolve_join2 by done.
  rewrite <- (rev_involutive (resolve base)) at 2.
  by apply (normalize_segments_below _ _ []).
Qed.

Section DiskProperties.

Variable buffer_from : value → option string.
Variable __dirname : string.

(** X7: neither handler ever deletes anything or replaces one kind of node
    by the other: whatever the request and however it ends, every
    directory on the disk is still a directory afterwards and every file
    still a file. *)
Theorem handlers_never_delete :
  (∀ e projectId files st,
      persists (disk st)
        (disk (load_project buffer_from __dirname e projectId files st).1.2))
  ∧ (∀ e projectId target content st,
        persists (disk st)
          (disk (update_file buffer_from e projectId target content st).1.2)).
Proof.
  split.
  - intros e projectId files st.
    destruct (load_project_outcome buffer_from __dirname e projectId files st
                _ _ _ (run_eta _))
      as [(_ & _ & -> & _)|[(_ & _ & _ & _ & Hstep & _)
                           |(_ & k & _ & _ & _ & _ & Hstep & _)]].
    + apply (disk_step_persists (fun _ => True)), disk_step_refl.
    + by eapply disk_step_persists.
    + by eapply disk_step_persists.
  - intros e projectId target content st. rewrite update_file_run.
    destruct (invalid_update projectId target content);
      [apply (disk_step_persists (fun _ => True)), disk_step_refl|].
    destruct (projects_get projectId (projects st)) as [proj|];
      [|apply (disk_step_persists (fun _ => True)), disk_step_refl].
    destruct (join_values [VStr (path proj); target]) as [error|filePath];
      [apply (disk_step_persists (fun _ => True)), disk_step_refl|].
    destruct (writeFile buffer_from filePath content st) as [[res st1] tr1] eqn:Hw.
    destruct (touches_writeFile buffer_from _ _ _ _ _ _ Hw) as [Hstep _].
    destruct res as [error|[]]; by eapply disk_step_persists.
Qed.


End DiskProperties.

(** ** More about [/update-file] *)

Lemma open_w_missing_directory fs p :
  is_dir fs (removelast (resolve p)) = false → ∃ error, open_w fs p = inl error.
Proof.
  intros Hdir. unfold open_w. destruct (path_refused p); [by eauto|].
  destruct (ends_with_slash p); [by eauto|].
  destruct (resolve p) as [|s segs]; [by eauto|]. rewrite Hdir.
  destruct (fs !! removelast (s :: segs)) as [[|d]|]; by eauto.
Qed.

Section UpdateMore.

Variable buffer_from : value → option string.


(** X10: the update route does not create directories.  A valid update on a
    registered project whose target lies in a directory that is not on the
    disk answers 500, and nothing is written or changed. *)
Theorem update_file_missing_directory e projectId target content st proj filePath :
  invalid_update projectId target content = false →
  projects_get projectId (projects st) = Some proj →
  join_values [VStr (path proj); target] = inr filePath →
  is_dir (disk st) (removelast (resolve filePath)) = false →
  ∃ error,
    update_file buffer_from e projectId target content st
    = (update_failed error, st, [EvConsoleError "Error updating file:"]).
Proof.
  intros Hvalid Hget Hjoin Hdir.
  rewrite update_file_run, Hvalid, Hget, Hjoin.
  destruct (open_w_missing_directory _ _ Hdir) as [error Hopen].
  destruct content; try (by eexists).
  - rewrite writeFile_string, Hopen. by eexists.
  - rewrite writeFile_array, Hopen. by eexists.
Qed.

(** X11: a successful update whose target does not climb, on a project whose
    path is absolute, changes the disk at one place at most, and that place
    lies at or below the project's path: the path's segments followed by
    the normalised segments of the target. *)
Theorem update_file_confined e projectId p content st proj r st' tr :
  update_file buffer_from e projectId (VStr p) content st = (r, st', tr) →
  status r = 200%Z →
  projects_get projectId (projects st) = Some proj →
  starts_with_slash (path proj) = true →
  climbs p = false →
  ∀ key,
    disk st' !! key ≠ disk st !! key →
    key = resolve (path proj) ++ normalize_segments true [] (split_slash p).
Proof.
  rewrite update_file_run. intros Hrun Hok Hget Habs Hclimb key Hchanged.
  destruct (invalid_update projectId (VStr p) content);
    [by simplify_eq|].
  rewrite Hget in Hrun.
  change (join_values [VStr (path proj); VStr p])
    with (@inr js_error _ (join [path proj; p])) in Hrun.
  cbv beta iota in Hrun.
  rewrite <- (resolve_join_below _ _ Habs Hclimb).
  destruct (writeFile buffer_from (join [path proj; p]) content st)
    as [[[error|[]] st1] tr1] eqn:Hw; [by simplify_eq|].
  injection Hrun as <- <- <-.
  destruct (decide (key = resolve (join [path proj; p]))) as [->|Hne]; [done|].
  exfalso. apply Hchanged. clear Hchanged. revert Hw.
  destruct content; try done.
  - rewrite writeFile_string.
    destruct (open_w (disk st) (join [path proj; p])) as [error|k] eqn:Hopen; [done|].
    apply open_w_key in Hopen as [-> _]. intros [= <- _]. simpl.
    by rewrite lookup_insert_ne.
  - rewrite writeFile_array.
    destruct (open_w (disk st) (join [path proj; p])) as [error|k] eqn:Hopen; [done|].
    apply open_w_key in Hopen as [-> _]. simpl.
    destruct (write_chunks buffer_from items EmptyString).2; [done|].
    intros [= <- _]. simpl. by rewrite lookup_insert_ne.
Qed.

End UpdateMore.

(** ** More about the cleanup and the shutdown *)

Lemma filter_kept_idem t m :
  List.filter (kept t) (List.filter (kept t) m) = List.filter (kept t) m.
Proof.
  induction m as [|kv m IH]; [done|]. simpl.
  destruct (kept t kv) eqn:Hkept; [|done]. simpl. by rewrite Hkept, IH.
Qed.

Lemma filter_evicted_kept t m :
  List.filter (evicted t) (List.filter (kept t) m) = [].
Proof.
  induction m as [|kv m IH]; [done|]. simpl.
  destruct (kept t kv) eqn:Hkept; [|done]. simpl.
  unfold kept in Hkept. unfold evicted at 1.
  by destruct (expired t kv.2).
Qed.

Lemma map_get_filter_kept t k m :
  NoDup m.*1 →
  map_get k (List.filter (kept t) m)
  = match map_get k m with
    | Some p => if expired t p then None else Some p
    | None => None
    end.
Proof.
  induction m as [|[k' p'] m IH]; [done|].
  rewrite fmap_cons, NoDup_cons. cbn [fst]. intros [Hfresh Hnodup].
  cbn [List.filter map_get]. unfold kept at 1. cbn [snd].
  destruct (String.eqb_spec k' k) as [->|Hne].
  - destruct (expired t p'); simpl; [|by rewrite String.eqb_refl].
    rewrite (IH Hnodup). by rewrite (proj2 (map_get_None k m) Hfresh).
  - destruct (expired t p'); simpl; [by apply IH|].
    destruct (String.eqb_spec k' k) as [->|_]; [done|by apply IH].
Qed.

Lemma cleanup_projects t st :
  NoDup (projects st).*1 →
  projects (cleanup t st).1 = List.filter (kept t) (projects st).
Proof. intros Hnodup. rewrite cleanup_run. simpl. by apply (sweep_filter t []). Qed.

Lemma closes_drain h m :
  NoDup (vite <$> m.*2) →
  closes h (map (fun kv : string * project => EvClose (vite kv.2)) m)
  = if bool_decide (h ∈ vite <$> m.*2) then 1 else 0.
Proof.
  induction m as [|[k p] m IH]; [done|].
  intros Hnd. change (NoDup (vite p :: (vite <$> m.*2))) in Hnd.
  apply NoDup_cons in Hnd as [Hfresh Hnodup].
  change (closes h (EvClose (vite p)
                    :: map (fun kv : string * project => EvClose (vite kv.2)) m)
          = if bool_decide (h ∈ vite p :: (vite <$> m.*2)) then 1 else 0).
  rewrite closes_cons. cbn [is_close]. rewrite (IH Hnodup).
  destruct (Nat.eqb_spec h (vite p)) as [->|Hne].
  - rewrite (bool_decide_eq_false_2 (vite p ∈ vite <$> m.*2)) by done.
    by rewrite bool_decide_eq_true_2 by constructor.
  - destruct (bool_decide (h ∈ vite <$> m.*2)) eqn:Hin.
    + apply bool_decide_eq_true in Hin.
      rewrite bool_decide_eq_true_2; [done|by constructor].
    + apply bool_decide_eq_false in Hin.
      rewrite bool_decide_eq_false_2; [done|].
      rewrite not_elem_of_cons. by split.
Qed.

Lemma registered_elem_of h (m : list (string * project)) :
  h ∈ vite <$> m.*2 → ∃ k p, (k, p) ∈ m ∧ vite p = h.
Proof.
  intros Hin. apply list_elem_of_fmap in Hin as (p & -> & Hin).
  apply list_elem_of_fmap in Hin as ([k p'] & -> & Hin). by exists k, p'.
Qed.

Lemma elem_of_registered (k : string) p (m : list (string * project)) :
  (k, p) ∈ m → vite p ∈ vite <$> m.*2.
Proof.
  intros Hin. by apply (list_elem_of_fmap_2 vite), (list_elem_of_fmap_2 snd _ (k, p)).
Qed.

Section LifecycleMore.

Variable buffer_from : value → option string.
Variable __dirname : string.

(** What one turn of the event loop does to server [h]: it closes it at
    most once, and only if [h] was registered and is no longer; a server
    registered afterwards was registered before or is new. *)
Lemma step_closes st tr st' h :
  registry_ok __dirname st → step buffer_from __dirname st tr st' →
  (closes h tr = 0
   ∨ (closes h tr = 1 ∧ h ∈ vite <$> (projects st).*2
      ∧ h ∉ vite <$> (projects st').*2))
  ∧ (h ∈ vite <$> (projects st').*2 →
     h ∈ vite <$> (projects st).*2 ∨ (servers st ≤ h)%nat)
  ∧ (servers st ≤ servers st')%nat.
Proof.
  intros (Hkeys & Hservers & Hall) Hstep.
  destruct Hstep as [e projectId items st|e projectId target content st|t st
                    |p fulfilled st].
  - destruct (load_project_registry buffer_from __dirname e projectId items st
                _ _ _ (run_eta _)) as [Hcl [[Hp Hs]|(k & _ & _ & Hp & Hs)]].
    + rewrite Hp, Hs. split; [by left|]. split; [by left|done].
    + rewrite Hp, Hs. split; [by left|]. split; [|lia].
      intros Hin. apply registered_elem_of in Hin as (k' & q & Hin & <-).
      apply map_set_elem_of in Hin as [[= _ ->]|Hin]; [by right|].
      left. by eapply elem_of_registered.
  - destruct (update_file_registry buffer_from e projectId target content st)
      as [Hp Hs].
    rewrite Hp, Hs. split; [left; apply update_file_closes|]. split; [by left|done].
  - rewrite (cleanup_projects _ _ Hkeys). rewrite cleanup_run. cbn [fst snd servers].
    split; [|split; [|done]].
    + destruct (decide (h ∈ vite <$> (projects st).*2)) as [Hin|Hnot];
        [|left; by apply eviction_calls_closes].
      destruct (registered_elem_of _ _ Hin) as (k & p & Hkp & <-).
      rewrite (eviction_closes_once t _ k p Hservers Hkp).
      destruct (expired t p) eqn:Hexp; [|by left]. right.
      split; [done|]. split; [done|]. intros Hin'.
      apply registered_elem_of in Hin' as (k' & q & Hq & Hvq).
      apply list_elem_of_In, List.filter_In in Hq as [Hq Hkept].
      apply list_elem_of_In in Hq.
      pose proof (eviction_closes_once t _ k' q Hservers Hq) as Hc.
      rewrite Hvq, (eviction_closes_once t _ k p Hservers Hkp), Hexp in Hc.
      unfold kept in Hkept. simpl in Hkept. by destruct (expired t q).
    + intros Hin. left. apply registered_elem_of in Hin as (k & p & Hkp & <-).
      apply list_elem_of_In, List.filter_In in Hkp as [Hkp _].
      apply list_elem_of_In in Hkp. by eapply elem_of_registered.
  - unfold rm_settled. destruct fulfilled; simpl; (split; [by left|]);
      (split; [by left|done]).
Qed.

Lemma steps_closes st tr st' tr0 :
  steps buffer_from __dirname st tr st' →
  registry_ok __dirname st →
  (∀ h, (closes h tr0 ≤ 1)%nat) →
  (∀ h, h ∈ vite <$> (projects st).*2 → closes h tr0 = 0) →
  (∀ h, (servers st ≤ h)%nat → closes h tr0 = 0) →
  (∀ h, (closes h (tr0 ++ tr) ≤ 1)%nat)
  ∧ (∀ h, h ∈ vite <$> (projects st').*2 → closes h (tr0 ++ tr) = 0).
Proof.
  intros Hsteps. revert tr0.
  induction Hsteps as [|st0 tr1 st1 tr2 st2 Hstep _ IH];
    intros tr0 Hok Hmost Hreg Hnew.
  { rewrite app_nil_r. by split. }
  rewrite app_assoc. apply IH.
  - by eapply step_registry_ok.
  - intros h. rewrite closes_app.
    destruct (step_closes _ _ _ h Hok Hstep) as ([Hc|(Hc & Hin & _)] & _ & _).
    + rewrite Hc. specialize (Hmost h). lia.
    + rewrite Hc, (Hreg h Hin). lia.
  - intros h Hin. rewrite closes_app.
    destruct (step_closes _ _ _ h Hok Hstep) as ([Hc|(_ & _ & Hnot)] & Hfrom & _);
      [|done].
    rewrite Hc. destruct (Hfrom Hin) as [Hbefore|Hfresh].
    + by rewrite (Hreg h Hbefore).
    + by rewrite (Hnew h Hfresh).
  - intros h Hge. rewrite closes_app.
    destruct (step_closes _ _ _ h Hok Hstep) as ([Hc|(_ & Hin & _)] & _ & Hle).
    + rewrite Hc, (Hnew h); lia.
    + exfalso. destruct Hok as (_ & _ & Hall).
      apply registered_elem_of in Hin as (k & p & Hkp & <-).
      rewrite Forall_forall in Hall. destruct (Hall _ Hkp) as [Hlt _].
      simpl in Hlt. lia.
Qed.

(** X12: a second tick of the cleanup at the same time finds nothing to
    do: it leaves the state as the first tick left it and makes no call. *)
Theorem cleanup_idempotent t st :
  reachable buffer_from __dirname st →
  cleanup t (cleanup t st).1 = ((cleanup t st).1, []).
Proof.
  intros Hreach.
  destruct (reachable_registry_ok _ _ _ Hreach) as (Hkeys & _ & _).
  assert (NoDup (projects (cleanup t st).1).*1) as Hkeys'.
  { rewrite cleanup_run. simpl.
    apply (sublist_NoDup _ _ Hkeys), fmap_sublist, sweep_sublist. }
  rewrite (cleanup_run t (cleanup t st).1).
  pose proof (cleanup_projects t _ Hkeys') as Hp. rewrite cleanup_run in Hp.
  simpl in Hp. rewrite Hp.
  rewrite (cleanup_projects _ _ Hkeys), filter_kept_idem, filter_evicted_kept.
  rewrite cleanup_run. simpl. f_equal. f_equal.
  symmetry. by apply (sweep_filter t []).
Qed.

(** X13: how long a session is served.  After a successful load at time
    [now e], the preview route of the id answers 404 after a tick of the
    cleanup at a time more than 1 800 000 ms later, and is served as before
    after a tick at any earlier time: the age that evicts is strictly more
    than thirty minutes. *)
Theorem load_then_cleanup e k files st r st' tr t calls next hs :
  reachable buffer_from __dirname st →
  load_project buffer_from __dirname e (VStr k) files st = (r, st', tr) →
  status r = 200%Z →
  preview calls next k hs (cleanup t st').1
  = if (t - now e >? 1800000)%Z then PreviewNotFound
    else preview calls next k hs st'.
Proof.
  intros Hreach Hrun Hok.
  assert (registry_ok __dirname st') as (Hkeys & _).
  { apply (step_registry_ok buffer_from __dirname st tr);
      [by apply (reachable_registry_ok buffer_from)|].
    replace tr with (load_project buffer_from __dirname e (VStr k) files st).2
      by (by rewrite Hrun).
    replace st' with (load_project buffer_from __dirname e (VStr k) files st).1.2
      by (by rewrite Hrun).
    apply step_load. }
  destruct (load_project_outcome _ _ _ _ _ _ _ _ _ Hrun)
    as [(_ & -> & _)|[(_ & [error ->] & _)|(_ & k' & [= <-] & _ & Hp & _)]];
    [discriminate Hok|discriminate Hok|].
  unfold preview. rewrite (cleanup_projects _ _ Hkeys), (map_get_filter_kept _ _ _ Hkeys).
  rewrite Hp, map_get_set_eq. unfold expired, MAX_AGE. simpl createdAt.
  change (30 * 60 * 1000)%Z with 1800000%Z.
  by destruct (t - now e >? 1800000)%Z.
Qed.

(** X14: shutdown.  In a state the process can be in, the handler of
    SIGTERM, when nothing else runs between its awaits, closes the server
    of every registered session exactly once, closes no other server, makes
    one call for each session and one to exit, and exits last. *)
Theorem sigterm_drains st :
  reachable buffer_from __dirname st →
  (∀ k p, map_get k (projects st) = Some p → closes (vite p) (sigterm st) = 1)
  ∧ (∀ h, h ∉ vite <$> (projects st).*2 → closes h (sigterm st) = 0)
  ∧ length (sigterm st) = S (length (projects st))
  ∧ last (sigterm st) = Some (EvExit 0).
Proof.
  intros Hreach.
  destruct (reachable_registry_ok _ _ _ Hreach) as (_ & Hservers & _).
  unfold sigterm. repeat split.
  - intros k p Hget. rewrite closes_app, (closes_drain _ _ Hservers).
    rewrite bool_decide_eq_true_2; [done|].
    eapply elem_of_registered. by apply map_get_elem_of.
  - intros h Hnot. rewrite closes_app, (closes_drain _ _ Hservers).
    by rewrite bool_decide_eq_false_2.
  - rewrite length_app, length_map. simpl. lia.
  - by rewrite last_snoc.
Qed.

(** X15: after a successful load the preview route of the id is served by
    the server that load created, also when the id was registered before;
    the routes of all other ids are as they were. *)
Theorem preview_after_load e k files st r st' tr calls next hs :
  load_project buffer_from __dirname e (VStr k) files st = (r, st', tr) →
  status r = 200%Z →
  (∃ hs', preview calls next k hs st' = PreviewServed (servers st) hs')
  ∧ ∀ k', k' ≠ k → preview calls next k' hs st' = preview calls next k' hs st.
Proof.
  intros Hrun Hok.
  destruct (load_project_outcome _ _ _ _ _ _ _ _ _ Hrun)
    as [(_ & -> & _)|[(_ & [error ->] & _)|(_ & k' & [= <-] & _ & Hp & _)]];
    [discriminate Hok|discriminate Hok|].
  unfold preview. rewrite Hp. split.
  - rewrite map_get_set_eq. by eexists.
  - intros k' Hne. by rewrite map_get_set_ne.
Qed.

(** X16: in a state the process can be in, the server of every registered
    session is one that was created and its path is the workspace of its
    id, and two sessions registered under different ids never share a
    server. *)
Theorem sessions_own_their_server st :
  reachable buffer_from __dirname st →
  (∀ k p,
      map_get k (projects st) = Some p →
      vite p < servers st ∧ path p = join [__dirname; "projects"; k])
  ∧ (∀ k1 k2 p1 p2,
        map_get k1 (projects st) = Some p1 →
        map_get k2 (projects st) = Some p2 →
        k1 ≠ k2 →
        vite p1 ≠ vite p2).
Proof.
  intros Hreach.
  destruct (reachable_registry_ok _ _ _ Hreach) as (Hkeys & Hservers & Hall).
  split.
  - intros k p Hget. apply map_get_elem_of in Hget.
    rewrite Forall_forall in Hall. destruct (Hall _ Hget) as [Hlt Hpath].
    by split.
  - intros k1 k2 p1 p2 H1 H2 Hne Heq.
    apply map_get_elem_of in H1, H2. clear Hall. revert Hkeys Hservers H1 H2.
    induction (projects st) as [|[k q] m IH]; [by rewrite elem_of_nil|].
    rewrite !fmap_cons, !NoDup_cons, !elem_of_cons. cbn [fst snd].
    intros [Hk Hkeys] [Hv Hservers] [E1|H1] [E2|H2].
    + congruence.
    + injection E1 as -> ->. apply Hv. rewrite Heq. by eapply elem_of_registered.
    + injection E2 as -> ->. apply Hv. rewrite <- Heq. by eapply elem_of_registered.
    + by apply IH.
Qed.

(** X17: over the whole life of the process, from its start to any state
    and through the shutdown that may follow (nothing else running between
    the awaits of its handler), no server is closed twice, and the server
    of a session that is still registered has not been closed. *)
Theorem servers_closed_at_most_once tr st h :
  steps buffer_from __dirname initial tr st →
  (closes h tr ≤ 1)%nat
  ∧ (h ∈ vite <$> (projects st).*2 → closes h tr = 0)
  ∧ (closes h (tr ++ sigterm st) ≤ 1)%nat.
Proof.
  intros Hsteps.
  assert (registry_ok __dirname initial) as Hinit
    by (repeat split; simpl; by constructor).
  assert (∀ h', closes h' [] = 0) as Hnil by done.
  destruct (steps_closes _ _ _ [] Hsteps Hinit) as [Hmost Hreg].
  { intros h'. rewrite Hnil. lia. }
  { intros h' _. apply Hnil. }
  { intros h' _. apply Hnil. }
  simpl in Hmost, Hreg.
  destruct (steps_registry_ok _ _ _ _ _ Hsteps Hinit) as (_ & Hservers & _).
  split; [apply Hmost|]. split; [apply Hreg|].
  rewrite closes_app. unfold sigterm.
  rewrite closes_app, (closes_drain _ _ Hservers).
  change (closes h [EvExit 0]) with 0.
  case_bool_decide as Hin.
  - rewrite (Hreg h Hin). lia.
  - specialize (Hmost h). lia.
Qed.

End LifecycleMore.

(** ** The headers of a response *)

Lemma guarded_setHeader_blocked name value hs :
  guarded_setHeader name value hs !! "x-frame-options" = hs !! "x-frame-options".
Proof.
  unfold guarded_setHeader, setHeader.
  destruct (String.eqb_spec (toLowerCase name) "x-frame-options") as [|Hne]; [done|].
  by rewrite lookup_insert_ne.
Qed.

Lemma engine_call_blocked hs c :
  hs !! "x-frame-options" = None → engine_call hs c !! "x-frame-options" = None.
Proof.
  intros Hnone. destruct c as [name value|name]; simpl.
  - by rewrite guarded_setHeader_blocked.
  - unfold removeHeader.
    destruct (decide (toLowerCase name = "x-frame-options")) as [->|Hne].
    + apply lookup_delete_eq.
    + by rewrite lookup_delete_ne.
Qed.

Lemma engine_call_other key hs c :
  names_header key c = false → engine_call hs c !! key = hs !! key.
Proof.
  destruct c as [name value|name]; simpl; intros Hne;
    apply String.eqb_neq in Hne.
  - unfold guarded_setHeader, setHeader.
    destruct (toLowerCase name =? "x-frame-options"); [done|].
    by rewrite lookup_insert_ne.
  - unfold removeHeader. by rewrite lookup_delete_ne.
Qed.

(** The headers as the preview route hands them to the engine, and the
    calls made on them from then on. *)
Lemma preview_run calls next projectId hs st :
  preview calls next projectId hs st
  = match map_get projectId (projects st) with
    | None => PreviewNotFound
    | Some project =>
        PreviewServed (vite project)
          (fold_left engine_call (calls ++ next)
             (<["cross-origin-resource-policy" := "cross-origin"]>
                (<["cross-origin-opener-policy" := "unsafe-none"]>
                   (<["cross-origin-embedder-policy" := "unsafe-none"]>
                      (<["content-security-policy" := "frame-ancestors *"]>
                         (delete "x-frame-options" hs))))))
    end.
Proof.
  unfold preview. destruct (map_get projectId (projects st)); [|done].
  by rewrite fold_left_app.
Qed.

Lemma fold_engine_call_blocked l start :
  start !! "x-frame-options" = None →
  fold_left engine_call l start !! "x-frame-options" = None.
Proof.
  revert start. induction l as [|c l IH]; intros start Hstart; [done|].
  simpl. by apply IH, engine_call_blocked.
Qed.

(** The last call that names a header other than [X-Frame-Options]
    decides what is stored for it. *)
Lemma fold_engine_call_last key l start :
  key ≠ "x-frame-options" →
  fold_left engine_call l start !! key
  = match last_naming key l with
    | None => start !! key
    | Some (CallSetHeader _ value) => Some value
    | Some (CallRemoveHeader _) => None
    end.
Proof.
  intros Hkey. revert start. induction l as [|c l IH]; intros start; [done|].
  cbn [fold_left last_naming]. rewrite IH.
  destruct (last_naming key l) as [c'|]; [done|].
  destruct (names_header key c) eqn:Hc; [|by apply engine_call_other].
  destruct c as [name value|name]; simpl in Hc; apply String.eqb_eq in Hc;
    simpl.
  - unfold guarded_setHeader, setHeader. rewrite Hc.
    destruct (String.eqb_spec key "x-frame-options") as [|_]; [done|].
    apply lookup_insert_eq.
  - unfold removeHeader. rewrite Hc. apply lookup_delete_eq.
Qed.

(** X18: whatever the headers were before, and whatever the engine, and
    what it passes the request on to, do through [res.setHeader] and
    [res.removeHeader], in any spelling of the name, the response to a
    preview carries no [X-Frame-Options]. *)
Theorem preview_never_forbids_framing calls next projectId hs st server hs' :
  preview calls next projectId hs st = PreviewServed server hs' →
  hs' !! "x-frame-options" = None.
Proof.
  rewrite preview_run. destruct (map_get projectId (projects st)); [|done].
  intros [= _ <-]. apply fold_engine_call_blocked.
  rewrite !lookup_insert_ne by done. apply lookup_delete_eq.
Qed.

(** X19: what becomes of the four permissive headers the preview route
    sets.  Each is decided by the last call that names it, made by the
    engine or, once the engine has passed the request on, by what handles
    it then: the value of that call if it sets the header, nothing if it
    removes it.  The header has the route's value only when no such call is
    made; a final handler that sets a policy of its own replaces the
    route's [frame-ancestors *]. *)
Theorem preview_permissive_headers calls next projectId hs st server hs' key v :
  preview calls next projectId hs st = PreviewServed server hs' →
  (key, v) ∈ permissive_headers →
  hs' !! key
  = match last_naming key (calls ++ next) with
    | None => Some v
    | Some (CallSetHeader _ value) => Some value
    | Some (CallRemoveHeader _) => None
    end.
Proof.
  rewrite preview_run. destruct (map_get projectId (projects st)); [|done].
  intros [= _ <-] Hin.
  unfold permissive_headers in Hin.
  rewrite !elem_of_cons, elem_of_nil in Hin.
  destruct Hin as [E|[E|[E|[E|[]]]]]; injection E as -> ->;
    rewrite fold_engine_call_last by done;
    destruct (last_naming _ (calls ++ next)) as [[]|]; try done.
  - rewrite !lookup_insert_ne by done. apply lookup_insert_eq.
  - rewrite !lookup_insert_ne by done. apply lookup_insert_eq.
  - rewrite !lookup_insert_ne by done. apply lookup_insert_eq.
  - apply lookup_insert_eq.
Qed.

(** X20: the middleware that runs for every request leaves the response
    without [X-Frame-Options], however it was spelled, with the policy
    [frame-ancestors *] and with every origin allowed; it touches no other
    header, and running it twice is running it once. *)
Theorem allow_embedding_headers :
  (∀ hs, allow_embedding hs !! "x-frame-options" = None)
  ∧ (∀ hs, allow_embedding hs !! "content-security-policy" = Some "frame-ancestors *")
  ∧ (∀ hs, allow_embedding hs !! "access-control-allow-origin" = Some "*")
  ∧ (∀ hs name value,
        toLowerCase name = "x-frame-options" →
        allow_embedding (setHeader name value hs) = allow_embedding hs)
  ∧ (∀ hs key,
        key ∉ ["x-frame-options"; "content-security-policy";
               "access-control-allow-origin"] →
        allow_embedding hs !! key = hs !! key)
  ∧ (∀ hs, allow_embedding (allow_embedding hs) = allow_embedding hs).
Proof.
  assert (∀ hs, allow_embedding hs
                = <["access-control-allow-origin" := "*"]>
                    (<["content-security-policy" := "frame-ancestors *"]>
                       (delete "x-frame-options" hs))) as Hrun by done.
  repeat split.
  - intros hs. rewrite Hrun, !lookup_insert_ne by done. apply lookup_delete_eq.
  - intros hs. rewrite Hrun, lookup_insert_ne by done. apply lookup_insert_eq.
  - intros hs. rewrite Hrun. apply lookup_insert_eq.
  - intros hs name value Hname. rewrite !Hrun. unfold setHeader. rewrite Hname.
    by rewrite delete_insert_eq.
  - intros hs key Hkey. rewrite !not_elem_of_cons in Hkey.
    destruct Hkey as (H1 & H2 & H3 & _).
    rewrite Hrun, !lookup_insert_ne by done. by rewrite lookup_delete_ne.
  - intros hs. rewrite !Hrun. apply map_eq. intros key.
    destruct (decide (key = "access-control-allow-origin")) as [->|H1];
      [by rewrite !lookup_insert_eq|].
    rewrite !(lookup_insert_ne _ "access-control-allow-origin") by done.
    destruct (decide (key = "content-security-policy")) as [->|H2];
      [by rewrite !lookup_insert_eq|].
    rewrite !(lookup_insert_ne _ "content-security-policy") by done.
    destruct (decide (key = "x-frame-options")) as [->|H3];
      [by rewrite !lookup_delete_eq|].
    rewrite !lookup_delete_ne by done.
    rewrite !lookup_insert_ne by done. by rewrite lookup_delete_ne.
Qed.

(** ** The allow-list of origins *)

Lemma split_on_length sep s : length (split_on sep s) = S (occurrences sep s).
Proof.
  induction s as [|c rest IH]; [done|]. simpl.
  destruct (Ascii.eqb c sep); simpl; [by rewrite IH|].
  destruct (split_on sep rest) as [|seg segs]; [done|]. by simpl in *.
Qed.

Lemma split_on_fields sep s :
  Forall (fun field => occurrences sep field = 0) (split_on sep s).
Proof.
  induction s as [|c rest IH]; [by repeat constructor|]. simpl.
  destruct (Ascii.eqb c sep) eqn:Hc; [by constructor|].
  destruct (split_on sep rest) as [|seg segs].
  - repeat constructor. simpl. by rewrite Hc.
  - apply Forall_cons in IH as [Hseg Hsegs]. constructor; [|done].
    simpl. by rewrite Hc.
Qed.

Lemma join_on_split_on sep s : join_on sep (split_on sep s) = s.
Proof.
  induction s as [|c rest IH]; [done|]. simpl.
  destruct (Ascii.eqb_spec c sep) as [->|Hc].
  - destruct (split_on sep rest) as [|seg segs] eqn:Hsplit.
    + pose proof (split_on_length sep rest) as Hlen. by rewrite Hsplit in Hlen.
    + change (join_on sep (EmptyString :: seg :: segs))
        with (String sep (join_on sep (seg :: segs))). by rewrite IH.
  - destruct (split_on sep rest) as [|seg segs] eqn:Hsplit.
    + pose proof (split_on_length sep rest) as Hlen. by rewrite Hsplit in Hlen.
    + rewrite <- IH. by destruct segs.
Qed.

Section ConfigurationProperties.

Variable trim : string → string.

(** X21: when the variable [ALLOWED_ORIGINS] is set, the allow-list has one
    entry for each field between commas, one more than there are commas:
    the entries are the trimmed forms, in order, of the fields without a
    comma that give the variable back when joined with commas.  A variable
    that is set is never replaced by the default, not even when it is
    empty: the list then holds one entry, the trimmed empty string. *)
Theorem allowed_origins_fields :
  (∀ v, length (ALLOWED_ORIGINS trim (Some v)) = S (occurrences ","%char v))
  ∧ (∀ v, ∃ fields,
        ALLOWED_ORIGINS trim (Some v) = trim <$> fields
        ∧ Forall (fun field => occurrences ","%char field = 0) fields
        ∧ join_on ","%char fields = v)
  ∧ ALLOWED_ORIGINS trim (Some EmptyString) = [trim EmptyString].
Proof.
  repeat split.
  - intros v. unfold ALLOWED_ORIGINS. by rewrite length_map, split_on_length.
  - intros v. exists (split_on ","%char v).
    split; [done|]. split; [apply split_on_fields|apply join_on_split_on].
Qed.

End ConfigurationProperties.

(** ** A load, then an update *)






Section LoadThenUpdate.

Variable buffer_from : value → option string.
Variable __dirname : string.
Hypothesis dirname_absolute : starts_with_slash __dirname = true.


End LoadThenUpdate.

(** ** The properties above on the scenarios *)

(** X2 on a numeric id. *)
Lemma load_project_id_not_string_witness :
  ∃ error,
    load_project string_chunks app_dir (quiet 1000) (VNum 7) (VArr []) initial
    = (load_failed error, initial, [EvConsoleError "Error loading project:"]).
Proof.
  apply (load_project_id_not_string string_chunks app_dir (quiet 1000)
           (VNum 7) (VArr []) initial); [reflexivity|by intros k].
Defined.

(** X3 on a load whose engine does not start. *)
Lemma failed_load_registers_nothing_witness :
  projects stillborn_load.1.2 = projects initial
  ∧ servers stillborn_load.1.2 = servers initial
  ∧ ∀ h root, EvCreateServer h root ∉ stillborn_load.2.
Proof.
  apply (failed_load_registers_nothing string_chunks app_dir (engine_down 1000)
           (VStr "demo") (VArr [file_entry "/index.html" "<h1>hi</h1>"]) initial
           stillborn_load.1.1 stillborn_load.1.2 stillborn_load.2
           (run_eta stillborn_load)).
  by vm_compute.
Defined.

(** X4 on a second project. *)
Lemma load_project_registers_witness :
  ∃ k,
    VStr "other" = VStr k
    ∧ body second_project.1.1
      = VObj [("success", VBool true); ("projectId", VStr k);
              ("previewUrl", VStr ("/preview/" +:+ k))]
    ∧ map_get k (projects second_project.1.2)
      = Some {| vite := servers demo_loaded; path := join [app_dir; "projects"; k];
                files := entries (VArr [file_entry "main.js" "m"]);
                createdAt := now (quiet 2000) |}
    ∧ servers second_project.1.2 = S (servers demo_loaded)
    ∧ ∀ k', k' ≠ k →
            map_get k' (projects second_project.1.2)
            = map_get k' (projects demo_loaded).
Proof.
  apply (load_project_registers string_chunks app_dir (quiet 2000)
           (VStr "other") (VArr [file_entry "main.js" "m"]) demo_loaded
           second_project.1.1 second_project.1.2 second_project.2
           (run_eta second_project)).
  by vm_compute.
Defined.

(** X5 on the project of the README loaded twice: still one project. *)
Lemma health_counts_projects_witness :
  get_prop (body (health (VNum 12) 3000 reload.1.2)) "activeProjects"
  = inr (VNum 1).
Proof.
  apply (health_counts_projects string_chunks app_dir (quiet 2000) "demo"
           (VArr [file_entry "/index.html" "<h1>again</h1>"]) demo_loaded
           reload.1.1 reload.1.2 reload.2 (VNum 12) 3000 (run_eta reload)).
  by vm_compute.
Defined.

(** X6 on the scenario of the README. *)
Lemma load_project_engine_last_witness :
  is_dir (disk demo_loaded) (resolve (join [app_dir; "projects"; "demo"])) = true
  ∧ ∃ calls,
      demo_load.2
      = calls ++ [EvCreateServer (servers initial) (join [app_dir; "projects"; "demo"])]
      ∧ Forall fs_call calls.
Proof.
  apply (load_project_engine_last string_chunks app_dir (quiet 1000) "demo"
           (VArr [file_entry "/index.html" "<h1>hi</h1>"]) initial
           demo_load.1.1 demo_load.1.2 demo_load.2 (run_eta demo_load)).
  by vm_compute.
Defined.



(** X10 on an update into a directory that the load did not create. *)
Lemma update_file_missing_directory_witness :
  ∃ error,
    update_file string_chunks (quiet 2000) (VStr "demo") (VStr "src/main.js")
      (VStr "render()") demo_loaded
    = (update_failed error, demo_loaded, [EvConsoleError "Error updating file:"]).
Proof.
  apply (update_file_missing_directory string_chunks (quiet 2000) (VStr "demo")
           (VStr "src/main.js") (VStr "render()") demo_loaded demo_session
           "/srv/app/projects/demo/src/main.js");
    by vm_compute.
Defined.

(** X11 on the update of the page: nothing changes but the page. *)
Lemma update_file_confined_witness :
  status page_update.1.1 = 200%Z
  ∧ ∀ key,
      disk page_update.1.2 !! key ≠ disk demo_loaded !! key →
      key = resolve (path demo_session)
            ++ normalize_segments true [] (split_slash "index.html").
Proof.
  split; [reflexivity|].
  apply (update_file_confined string_chunks (compiled 2000) (VStr "demo")
           "index.html" (VStr "<h1>new</h1>") demo_loaded demo_session
           page_update.1.1 page_update.1.2 page_update.2 (run_eta page_update));
    by vm_compute.
Defined.

(** X12 on a tick that evicts one session of two. *)
Lemma cleanup_idempotent_witness :
  cleanup 1800001 (cleanup 1800001 alias_young.1.2).1
  = ((cleanup 1800001 alias_young.1.2).1, []).
Proof.
  apply (cleanup_idempotent string_chunks app_dir 1800001 alias_young.1.2
           alias_young_reachable).
Defined.

(** X13 at the boundary: the project of the README, loaded at 1000, is
    still served after a tick at 1 801 000. *)
Lemma load_then_cleanup_witness :
  preview framing_engine [] "demo" framed_headers (cleanup 1801000 demo_loaded).1
  = preview framing_engine [] "demo" framed_headers demo_loaded.
Proof.
  apply (load_then_cleanup string_chunks app_dir (quiet 1000) "demo"
           (VArr [file_entry "/index.html" "<h1>hi</h1>"]) initial
           demo_load.1.1 demo_load.1.2 demo_load.2 1801000
           framing_engine [] framed_headers
           (ex_intro _ [] (steps_done string_chunks app_dir initial))
           (run_eta demo_load)).
  by vm_compute.
Defined.

(** X14 on two projects. *)
Lemma sigterm_drains_witness :
  (∀ k p, map_get k (projects siblings) = Some p →
          closes (vite p) (sigterm siblings) = 1)
  ∧ (∀ h, h ∉ vite <$> (projects siblings).*2 → closes h (sigterm siblings) = 0)
  ∧ length (sigterm siblings) = S (length (projects siblings))
  ∧ last (sigterm siblings) = Some (EvExit 0).
Proof.
  apply (sigterm_drains string_chunks app_dir siblings siblings_reachable).
Defined.

(** X15 on the project of the README loaded twice: the preview is served by
    the second server. *)
Lemma preview_after_load_witness :
  (∃ hs', preview framing_engine [] "demo" framed_headers reload.1.2
          = PreviewServed (servers demo_loaded) hs')
  ∧ ∀ k', k' ≠ "demo" →
          preview framing_engine [] k' framed_headers reload.1.2
          = preview framing_engine [] k' framed_headers demo_loaded.
Proof.
  apply (preview_after_load string_chunks app_dir (quiet 2000) "demo"
           (VArr [file_entry "/index.html" "<h1>again</h1>"]) demo_loaded
           reload.1.1 reload.1.2 reload.2 framing_engine [] framed_headers
           (run_eta reload)).
  by vm_compute.
Defined.

(** X16 on two projects. *)
Lemma sessions_own_their_server_witness :
  (∀ k p,
      map_get k (projects siblings) = Some p →
      vite p < servers siblings ∧ path p = join [app_dir; "projects"; k])
  ∧ (∀ k1 k2 p1 p2,
        map_get k1 (projects siblings) = Some p1 →
        map_get k2 (projects siblings) = Some p2 →
        k1 ≠ k2 →
        vite p1 ≠ vite p2).
Proof.
  apply (sessions_own_their_server string_chunks app_dir siblings
           siblings_reachable).
Defined.

(** X17 on the README's project from its load to its eviction and the
    shutdown after it. *)
Lemma servers_closed_at_most_once_witness :
  (closes 0 evicted_run ≤ 1)%nat
  ∧ (0 ∈ vite <$> (projects evicted_state).*2 → closes 0 evicted_run = 0)
  ∧ (closes 0 (evicted_run ++ sigterm evicted_state) ≤ 1)%nat.
Proof.
  apply (servers_closed_at_most_once string_chunks app_dir evicted_run
           evicted_state 0
           (steps_more string_chunks app_dir _ _ _ _ _
              (step_load string_chunks app_dir (quiet 1000) (VStr "demo")
                 (VArr [file_entry "/index.html" "<h1>hi</h1>"]) initial)
              (steps_more string_chunks app_dir _ _ _ _ _
                 (step_cleanup string_chunks app_dir 5000000 demo_loaded)
                 (steps_done string_chunks app_dir evicted_state)))).
Defined.

(** X18 on an engine that tries to forbid framing, in two spellings, on a
    response that already forbade it, and then passes the request on to a
    final handler. *)
Lemma preview_never_forbids_framing_witness :
  ∃ hs',
    preview framing_engine final_handler "demo" framed_headers demo_loaded
    = PreviewServed 0 hs'
    ∧ hs' !! "x-frame-options" = None.
Proof.
  eexists. split; [reflexivity|].
  apply (preview_never_forbids_framing framing_engine final_handler "demo"
           framed_headers demo_loaded 0).
  reflexivity.
Defined.

(** X19 on an engine that makes no call and passes the request on to a
    final handler: the policy of the response is the handler's. *)
Lemma preview_permissive_headers_witness :
  ∃ hs',
    preview [] final_handler "demo" framed_headers demo_loaded = PreviewServed 0 hs'
    ∧ hs' !! "content-security-policy" = Some "default-src 'none'".
Proof.
  eexists. split; [reflexivity|].
  apply (preview_permissive_headers [] final_handler "demo" framed_headers
           demo_loaded 0 _ "content-security-policy" "frame-ancestors *").
  - reflexivity.
  - by constructor.
Defined.

